(** * The allpix message bus: registry, delegates and dispatch

    A shallow embedding of [Messenger] (core/messenger/Messenger.hpp): the
    delegate map [delegates_], the three registration templates
    [registerListener], [bindSingle], [bindMulti] and the three overloads of
    [dispatchMessage].

    The header holds the bodies of the registration templates and of the two
    dispatch templates.  The third overload,
    [dispatchMessage(std::shared_ptr<Message>, std::string)], is only declared
    there (its body is in Messenger.cpp), and the classes [Delegate],
    [SingleBindDelegate] and [VectorBindDelegate] come from [delegates.h];
    what these do is taken from the specification and marked as such. *)

From stdpp Require Import base option list strings gmap.

Open Scope string_scope.
Open Scope list_scope.
Open Scope nat_scope.

(** ** Identifiers *)

(** [std::type_index(typeid(R))]: one identifier per class. *)
Definition type_index := nat.
(** [T *receiver]: the address of a module. *)
Definition module_ptr := nat.
(** A pointer to member of the receiver: a method, a [std::shared_ptr<R>]
    member or a [std::vector<std::shared_ptr<R>>] member. *)
Definition member_ptr := nat.
(** [BaseDelegate*]: the address of a delegate created by [new]. *)
Definition delegate_ptr := nat.
(** The address of a message object, as held by a [std::shared_ptr] or
    designated by a reference. *)
Definition addr := nat.

(** ** Messages *)

(** An object of a class derived from [Message]: its most-derived class, as
    [typeid] reports it, and its content.  The message classes themselves are
    outside the bus, which never looks at the content. *)
Record Object := mkObject {
  dyn_type : type_index;
  payload : Z
}.

(** [T(msg)] for [const T &msg]: the copy constructor of [T] builds an object
    whose most-derived class is [T], whatever class the referenced object was
    constructed as. *)
Definition copy_construct (T : type_index) (msg : Object) : Object :=
  {| dyn_type := T; payload := payload msg |}.

(** ** Delegates *)

(** The three classes created by the registration templates, each with the
    constructor arguments the template passes; [R] is the message class the
    template was instantiated with. *)
Inductive BaseDelegate :=
  | Delegate (R : type_index) (receiver : module_ptr) (method : member_ptr)
  | SingleBindDelegate (R : type_index) (receiver : module_ptr) (member : member_ptr)
  | VectorBindDelegate (R : type_index) (receiver : module_ptr) (member : member_ptr).

(** ** The state the bus works on *)

(** [delegates_] is the one data member of [Messenger].  The other fields are
    the memory the bus reaches through pointers: the delegates it allocates,
    the message objects, the bound members of the receiving modules, and two
    traces: the listener methods entered and the [call]s made on delegates. *)
Record World := mkWorld {
  delegates_ : gmap type_index (gmap string (list delegate_ptr));
  delegate_store : list BaseDelegate;
  objects : list Object;
  single_slots : gmap (module_ptr * member_ptr) addr;
  multi_slots : gmap (module_ptr * member_ptr) (list addr);
  heard : list (module_ptr * member_ptr * addr);
  calls : list (delegate_ptr * addr)
}.

(** [Messenger::Messenger()] with the message objects that exist already: an
    empty map, no delegate, every bound member in its default state (a null
    [shared_ptr], an empty vector). *)
Definition init (objs : list Object) : World :=
  {| delegates_ := ∅; delegate_store := []; objects := objs;
     single_slots := ∅; multi_slots := ∅; heard := []; calls := [] |}.

(** ** Calls that return or throw *)

Inductive exception :=
  | ConfigurationError
  | UnsatisfiedRequirementError
  | ReceiverFailure.

Inductive outcome (A : Type) :=
  | Returned (a : A)
  | Raised (e : exception).
Arguments Returned {A} a.
Arguments Raised {A} e.

(** A member function: it reads and writes the world and returns or throws. *)
Definition M (A : Type) : Type := World → outcome (A * World).

#[global] Instance M_ret : MRet M := λ A a w, Returned (a, w).
#[global] Instance M_bind : MBind M := λ A B f m w,
  match m w with
  | Returned (a, w') => f a w'
  | Raised e => Raised e
  end.

(** The world a call leaves behind; the world it started from if it threw. *)
Definition exec {A} (m : M A) (w : World) : World :=
  match m w with
  | Returned (_, w') => w'
  | Raised _ => w
  end.

(** [for (auto &x : xs) body(x);] *)
Fixpoint for_each {A} (xs : list A) (body : A → M unit) : M unit :=
  match xs with
  | [] => mret tt
  | x :: xs' => body x ;; for_each xs' body
  end.

(** ** Memory operations *)

(** [new D(...)]: the object is placed at the next free address. *)
Definition new_delegate (d : BaseDelegate) : M delegate_ptr := λ w,
  Returned (length (delegate_store w),
    {| delegates_ := delegates_ w; delegate_store := delegate_store w ++ [d];
       objects := objects w; single_slots := single_slots w;
       multi_slots := multi_slots w; heard := heard w; calls := calls w |}).

(** [std::make_shared<T>(...)]: likewise for a message object. *)
Definition make_shared (o : Object) : M addr := λ w,
  Returned (length (objects w),
    {| delegates_ := delegates_ w; delegate_store := delegate_store w;
       objects := objects w ++ [o]; single_slots := single_slots w;
       multi_slots := multi_slots w; heard := heard w; calls := calls w |}).

(** Reading the object a reference or pointer designates. *)
Definition object_at (a : addr) : M (option Object) := λ w,
  Returned (objects w !! a, w).

(** ** The delegate map *)

(** [delegates_[type][name]] read without inserting: the vector filed under
    the key, empty when there is none. *)
Definition entry (type : type_index) (name : string)
    (m : gmap type_index (gmap string (list delegate_ptr))) : list delegate_ptr :=
  match m !! type with
  | Some by_name => default [] (by_name !! name)
  | None => []
  end.

(** [delegates_[type][name].push_back(delegate)]: [operator[]] creates the
    inner map and the vector when they are missing. *)
Definition push_back (type : type_index) (name : string) (delegate : delegate_ptr) : M unit := λ w,
  let by_name := default ∅ (delegates_ w !! type) in
  let vec := default [] (by_name !! name) in
  Returned (tt,
    {| delegates_ := <[type := <[name := vec ++ [delegate]]> by_name]> (delegates_ w);
       delegate_store := delegate_store w;
       objects := objects w; single_slots := single_slots w;
       multi_slots := multi_slots w; heard := heard w; calls := calls w |}).

(** ** Registration (Messenger.hpp, lines 62 to 84) *)

(** The template arguments are the class [T] of the receiver, which only
    types the pointers, and the message class [R], whose [typeid] keys the
    map.  The two [static_assert]s constrain them at compile time.  The
    parameter the header calls [message_type] is the name the message is
    sent under, the channel. *)

Definition registerListener (R : type_index) (receiver : module_ptr)
    (method : member_ptr) (message_type : string) : M unit :=
  delegate ← new_delegate (Delegate R receiver method);
  push_back R message_type delegate.

Definition bindSingle (R : type_index) (receiver : module_ptr)
    (member : member_ptr) (message_type : string) : M unit :=
  delegate ← new_delegate (SingleBindDelegate R receiver member);
  push_back R message_type delegate.

Definition bindMulti (R : type_index) (receiver : module_ptr)
    (member : member_ptr) (message_type : string) : M unit :=
  delegate ← new_delegate (VectorBindDelegate R receiver member);
  push_back R message_type delegate.

(** ** Delegates at work *)

Definition delegate_at (delegate : delegate_ptr) : M (option BaseDelegate) := λ w,
  Returned (delegate_store w !! delegate, w).

Definition get_delegates : M (gmap type_index (gmap string (list delegate_ptr))) := λ w,
  Returned (delegates_ w, w).

(** The trace of the calls the bus makes on delegates. *)
Definition log_call (delegate : delegate_ptr) (msg : addr) : M unit := λ w,
  Returned (tt,
    {| delegates_ := delegates_ w; delegate_store := delegate_store w;
       objects := objects w; single_slots := single_slots w;
       multi_slots := multi_slots w; heard := heard w;
       calls := calls w ++ [(delegate, msg)] |}).

(** [(receiver->*method)(msg)]: what the method does is the module's
    business; the bus enters it, which the trace [heard] records. *)
Definition invoke (receiver : module_ptr) (method : member_ptr) (msg : addr) : M unit := λ w,
  Returned (tt,
    {| delegates_ := delegates_ w; delegate_store := delegate_store w;
       objects := objects w; single_slots := single_slots w;
       multi_slots := multi_slots w;
       heard := heard w ++ [(receiver, method, msg)]; calls := calls w |}).

(** [receiver->*member = msg] *)
Definition assign (receiver : module_ptr) (member : member_ptr) (msg : addr) : M unit := λ w,
  Returned (tt,
    {| delegates_ := delegates_ w; delegate_store := delegate_store w;
       objects := objects w;
       single_slots := <[(receiver, member) := msg]> (single_slots w);
       multi_slots := multi_slots w; heard := heard w; calls := calls w |}).

(** The vector member of a module; empty until something is appended. *)
Definition multi_at (slot : module_ptr * member_ptr) (w : World) : list addr :=
  default [] (multi_slots w !! slot).

(** [(receiver->*member).push_back(msg)] *)
Definition append (receiver : module_ptr) (member : member_ptr) (msg : addr) : M unit := λ w,
  Returned (tt,
    {| delegates_ := delegates_ w; delegate_store := delegate_store w;
       objects := objects w; single_slots := single_slots w;
       multi_slots := <[(receiver, member) := multi_at (receiver, member) w ++ [msg]]> (multi_slots w);
       heard := heard w; calls := calls w |}).

(** Modelled from the spec: [BaseDelegate::call] and its three overriders,
    declared in [delegates.h].  Section 4.2, step 3: a Listener invokes its
    bound method with the message, a SingleBind overwrites its slot with the
    message, a MultiBind appends the message to its slot's sequence. *)
Definition call (delegate : delegate_ptr) (msg : addr) : M unit :=
  log_call delegate msg ;;
  d ← delegate_at delegate;
  match d with
  | Some (Delegate _ receiver method) => invoke receiver method msg
  | Some (SingleBindDelegate _ receiver member) => assign receiver member msg
  | Some (VectorBindDelegate _ receiver member) => append receiver member msg
  | None => mret tt
  end.

(** ** Dispatch *)

(** Modelled from the spec: the delegates a message of class [type] sent on
    channel [name] goes to.  Section 4.2, step 2: the entry for (type, name)
    and, if the channel is non-empty, also the entry for (type, ""), the
    explicit-channel receivers before the wildcard receivers. *)
Definition receivers (type : type_index) (name : string)
    (m : gmap type_index (gmap string (list delegate_ptr))) : list delegate_ptr :=
  entry type name m ++ (if decide (name = "") then [] else entry type "" m).

(** Modelled from the spec: the body of
    [Messenger::dispatchMessage(std::shared_ptr<Message> msg, std::string name)],
    which the header only declares.  Section 4.2: the class is taken from the
    object the pointer designates (step 1), the receivers are looked up
    (step 2) and called in order (step 3); nothing is returned (step 5).
    Step 4 marks binding records, which the registration templates of the
    header do not create; it is modelled with them in [Validation] below.  A
    pointer that designates no object carries no message. *)
Definition dispatchMessage (msg : addr) (name : string) : M unit :=
  o ← object_at msg;
  match o with
  | Some o =>
      m ← get_delegates;
      for_each (receivers (dyn_type o) name m) (λ delegate, call delegate msg)
  | None => mret tt
  end.

(** Messenger.hpp, lines 51 to 55: [const T &msg] is copied into a new object
    made by [std::make_shared<T>], and the copy is dispatched. *)
Definition dispatchMessage_ref (T : type_index) (msg : addr) (name : string) : M unit :=
  o ← object_at msg;
  match o with
  | Some o =>
      msg_ptr ← make_shared (copy_construct T o);
      dispatchMessage msg_ptr name
  | None => mret tt
  end.

(** Messenger.hpp, lines 56 to 59: [std::static_pointer_cast<Message>(msg)]
    is the same pointer, to the same object. *)
Definition dispatchMessage_shared (T : type_index) (msg : addr) (name : string) : M unit :=
  dispatchMessage msg name.

(** ** Sequences of calls *)

(** A call of one of the three registration templates. *)
Inductive bind_call :=
  | RegisterListener (R : type_index) (receiver : module_ptr) (method : member_ptr) (message_type : string)
  | BindSingle (R : type_index) (receiver : module_ptr) (member : member_ptr) (message_type : string)
  | BindMulti (R : type_index) (receiver : module_ptr) (member : member_ptr) (message_type : string).

Definition do_bind (b : bind_call) : M unit :=
  match b with
  | RegisterListener R receiver method name => registerListener R receiver method name
  | BindSingle R receiver member name => bindSingle R receiver member name
  | BindMulti R receiver member name => bindMulti R receiver member name
  end.

(** The setup phase: the modules register one after the other. *)
Definition setup (bs : list bind_call) : M unit := for_each bs do_bind.

(** A call of one of the three overloads of [dispatchMessage]. *)
Inductive dispatch_call :=
  | ByRef (T : type_index) (msg : addr) (name : string)
  | ByShared (T : type_index) (msg : addr) (name : string)
  | ByPtr (msg : addr) (name : string).

Definition do_dispatch (c : dispatch_call) : M unit :=
  match c with
  | ByRef T msg name => dispatchMessage_ref T msg name
  | ByShared T msg name => dispatchMessage_shared T msg name
  | ByPtr msg name => dispatchMessage msg name
  end.

Definition run (cs : list dispatch_call) : M unit := for_each cs do_dispatch.

(** ** Vocabulary of the statements *)

(** The delegate a registration creates, and the key it files it under. *)
Definition delegate_of (b : bind_call) : BaseDelegate :=
  match b with
  | RegisterListener R receiver method _ => Delegate R receiver method
  | BindSingle R receiver member _ => SingleBindDelegate R receiver member
  | BindMulti R receiver member _ => VectorBindDelegate R receiver member
  end.

Definition key_of (b : bind_call) : type_index * string :=
  match b with
  | RegisterListener R _ _ name | BindSingle R _ _ name | BindMulti R _ _ name => (R, name)
  end.

(** The delegates registered for (type, name), in the order of the calls;
    the i-th registration of a setup that starts with [next] delegates
    allocated creates the delegate at address [next + i]. *)
Fixpoint registered_from (next : delegate_ptr) (type : type_index) (name : string)
    (bs : list bind_call) : list delegate_ptr :=
  match bs with
  | [] => []
  | b :: bs' =>
      (if decide (key_of b = (type, name)) then [next] else [])
      ++ registered_from (S next) type name bs'
  end.

Definition registered := registered_from 0.

(** The channel a dispatch call names. *)
Definition channel (c : dispatch_call) : string :=
  match c with
  | ByRef _ _ name | ByShared _ _ name | ByPtr _ name => name
  end.

(** What a dispatch call hands to the receivers: the pointer they get and
    the class of the object it designates. *)
Definition delivery (c : dispatch_call) (w : World) : option (addr * type_index) :=
  match c with
  | ByRef T msg _ => _ ← objects w !! msg; Some (length (objects w), T)
  | ByShared _ msg _ | ByPtr msg _ => o ← objects w !! msg; Some (msg, dyn_type o)
  end.


(** A message of class [T] sent on [name] is routed to a binding filed under
    (R, C): same class, and the channel is the binding's or the binding is
    on the wildcard channel. *)
Definition routes (T : type_index) (name : string) (R : type_index) (C : string) : bool :=
  bool_decide (T = R) && (bool_decide (name = C) || bool_decide (C = "")).




(** Two message classes for the examples; [DerivedHit] derives from [Hit]. *)
Definition Hit : type_index := 1.

Definition DerivedHit : type_index := 2.

(** Fields of the world that registration leaves alone. *)
Definition same_memory (w w' : World) : Prop :=
  objects w' = objects w ∧ single_slots w' = single_slots w
  ∧ multi_slots w' = multi_slots w ∧ heard w' = heard w ∧ calls w' = calls w.

(** Fields of the world that dispatch leaves alone. *)
Definition same_registry (w w' : World) : Prop :=
  delegates_ w' = delegates_ w ∧ delegate_store w' = delegate_store w.

(** ** What a round of calls does to the memory *)

(** The delegates a list of pointers designates. *)
Definition bound (store : list BaseDelegate) (ds : list delegate_ptr) : list BaseDelegate :=
  omap (λ d, store !! d) ds.

Definition writes_single (slot : module_ptr * member_ptr) (d : BaseDelegate) : bool :=
  match d with
  | SingleBindDelegate _ receiver member => bool_decide ((receiver, member) = slot)
  | _ => false
  end.

Definition appends_multi (slot : module_ptr * member_ptr) (d : BaseDelegate) : bool :=
  match d with
  | VectorBindDelegate _ receiver member => bool_decide ((receiver, member) = slot)
  | _ => false
  end.

Definition hears (msg : addr) (d : BaseDelegate) : option (module_ptr * member_ptr * addr) :=
  match d with
  | Delegate _ receiver method => Some (receiver, method, msg)
  | _ => None
  end.

Definition count_if {A} (f : A → bool) (l : list A) : nat := length (List.filter f l).

(** ** One dispatch *)

(** The delegates a dispatch call reaches and the pointer it hands them. *)
Definition targets (c : dispatch_call) (w : World) : list delegate_ptr :=
  match delivery c w with
  | Some (_, T) => receivers T (channel c) (delegates_ w)
  | None => []
  end.

Definition handed (c : dispatch_call) (w : World) : addr :=
  match delivery c w with
  | Some (p, _) => p
  | None => 0
  end.

(** The objects a dispatch call creates. *)
Definition copies (c : dispatch_call) (w : World) : list Object :=
  match c with
  | ByRef T msg _ =>
      match objects w !! msg with
      | Some o => [copy_construct T o]
      | None => []
      end
  | _ => []
  end.

(** The effect of a round of calls on the memory, as [call_all_returns]
    gives it. *)
Definition round_effect (ds : list delegate_ptr) (p : addr) (w w' : World) : Prop :=
  same_registry w w'
  ∧ calls w' = calls w ++ map (λ d, (d, p)) ds
  ∧ heard w' = heard w ++ omap (hears p) (bound (delegate_store w) ds)
  ∧ (∀ k, single_slots w' !! k
          = if existsb (writes_single k) (bound (delegate_store w) ds)
            then Some p else single_slots w !! k)
  ∧ (∀ k, multi_at k w'
          = multi_at k w
            ++ replicate (count_if (appends_multi k) (bound (delegate_store w) ds)) p).

(** ** Sequences of dispatch calls *)

(** The world after the setup phase and a sequence of dispatch calls, from a
    fresh bus. *)
Definition after (bs : list bind_call) (cs : list dispatch_call) (objs : list Object) : World :=
  exec (setup bs ;; run cs) (init objs).

(** ** The addresses of the registered delegates *)



Definition routed_delegates (T : type_index) (name : string) (bs : list bind_call) : list delegate_ptr :=
  registered T name bs ++ (if decide (name = "") then [] else registered T "" bs).

(** ** Registration and dispatch in any order *)

Inductive op :=
  | Bind (b : bind_call)
  | Dispatch (c : dispatch_call).

Definition do_op (o : op) : M unit :=
  match o with
  | Bind b => do_bind b
  | Dispatch c => do_dispatch c
  end.

Definition play (ops : list op) : M unit := for_each ops do_op.

(** The registrations among the calls, in the order they were made. *)
Definition binds (ops : list op) : list bind_call :=
  omap (λ o, match o with Bind b => Some b | Dispatch _ => None end) ops.

(** ** Dispatch order *)


(** ** Bound members over a sequence of dispatches *)




(** ** Two identical registrations *)


(** * Requirement validation *)

Inductive RequirementLevel := REQUIRED | OPTIONAL.

Inductive Discipline := Listener | SingleBind | MultiBind.

(** Modelled from the spec: the binding record of section 3, one per
    bind/register call: (Module identity, MessageType, Channel,
    RequirementLevel, discipline).  The registration templates of
    Messenger.hpp create none; the callers that pass [MsgFlags::REQUIRED]
    belong to a bus that does. *)
Record Binding := mkBinding {
  rec_module : module_ptr;
  rec_type : type_index;
  rec_channel : string;
  rec_level : RequirementLevel;
  rec_discipline : Discipline
}.

(** Modelled from the spec: a binding record with its two satisfaction
    flags of section 4.3, the one reset at the start of each cycle and the
    run-scoped one that is never reset. *)
Record BindingRecord := mkRecord {
  binding : Binding;
  satisfied_cycle : bool;
  satisfied_run : bool
}.

Inductive Scope := Cycle | Run.

(** What happens to the records: a cycle starts, or a message of some class
    is dispatched on some channel. *)
Inductive event :=
  | BeginCycle
  | Dispatched (type : type_index) (name : string).

(** Modelled from the spec: a record inserted by a bind/register call; it
    has seen no dispatch. *)
Definition new_record (g : Binding) : BindingRecord :=
  {| binding := g; satisfied_cycle := false; satisfied_run := false |}.

(** Modelled from the spec: section 4.2, step 4: every binding record
    matching the (MessageType, Channel) pair of the dispatch is recorded as
    satisfied; a record matches when the message is routed to its key. *)
Definition matches (g : Binding) (type : type_index) (name : string) : bool :=
  routes type name (rec_type g) (rec_channel g).

Definition mark (type : type_index) (name : string) (r : BindingRecord) : BindingRecord :=
  if matches (binding r) type name
  then {| binding := binding r; satisfied_cycle := true; satisfied_run := true |}
  else r.

(** Modelled from the spec: section 4.3: the cycle flags are reset at the
    start of each new cycle, the run-scoped flags never. *)
Definition reset_cycle (r : BindingRecord) : BindingRecord :=
  {| binding := binding r; satisfied_cycle := false; satisfied_run := satisfied_run r |}.

Definition record_step (recs : list BindingRecord) (e : event) : list BindingRecord :=
  match e with
  | BeginCycle => map reset_cycle recs
  | Dispatched type name => map (mark type name) recs
  end.

Definition replay (h : list event) (recs : list BindingRecord) : list BindingRecord :=
  fold_left record_step h recs.

Definition is_required (g : Binding) : bool :=
  match rec_level g with
  | REQUIRED => true
  | OPTIONAL => false
  end.

Definition satisfied (s : Scope) (r : BindingRecord) : bool :=
  match s with
  | Cycle => satisfied_cycle r
  | Run => satisfied_run r
  end.

Definition tuple_of (g : Binding) : module_ptr * type_index * string :=
  (rec_module g, rec_type g, rec_channel g).

(** Modelled from the spec: [checkRequirements(scope)] of sections 4.3 and
    6: pass or fail, plus the list of unsatisfied (Module, MessageType,
    Channel) tuples; it fails if any REQUIRED binding record was never
    satisfied in the scope, and OPTIONAL records impose no obligation. *)
Definition unsatisfied (s : Scope) (recs : list BindingRecord) : list BindingRecord :=
  List.filter (λ r, is_required (binding r) && negb (satisfied s r)) recs.

Definition checkRequirements (s : Scope) (recs : list BindingRecord)
    : bool * list (module_ptr * type_index * string) :=
  (match unsatisfied s recs with [] => true | _ :: _ => false end,
   map (λ r, tuple_of (binding r)) (unsatisfied s recs)).

(** The dispatches of a validation scope: those since the last start of a
    cycle, or all those of the run. *)
Definition scope_step (s : Scope) (acc : list (type_index * string)) (e : event)
    : list (type_index * string) :=
  match e, s with
  | BeginCycle, Cycle => []
  | BeginCycle, Run => acc
  | Dispatched type name, _ => acc ++ [(type, name)]
  end.

Definition in_scope (s : Scope) (h : list event) : list (type_index * string) :=
  fold_left (scope_step s) h [].

(** The number of dispatches of a scope that match a binding. *)
Definition received (g : Binding) (ds : list (type_index * string)) : nat :=
  count_if (λ d, matches g d.1 d.2) ds.

(** A REQUIRED binding that received nothing. *)
Definition starved (ds : list (type_index * string)) (g : Binding) : bool :=
  is_required g && (received g ds =? 0).

(** ** Inputs of the examples *)

Definition demo_setup : list bind_call :=
  [BindSingle Hit 1 2 "dut"; RegisterListener Hit 3 1 ""; BindMulti Hit 1 3 "dut";
   RegisterListener Hit 4 1 "dut"; BindMulti DerivedHit 5 1 ""].

Definition demo_objects : list Object :=
  [mkObject Hit 7; mkObject Hit 8; mkObject DerivedHit 9].

(** * Further parts of the framework *)

(** ** The class of a delegate *)

(** The message class a delegate was constructed for: the template argument
    [R] of [Delegate<T, R>], [SingleBindDelegate<T, R>] or
    [VectorBindDelegate<T, R>]. *)
Definition delegate_class (d : BaseDelegate) : type_index :=
  match d with
  | Delegate R _ _ | SingleBindDelegate R _ _ | VectorBindDelegate R _ _ => R
  end.

(** ** Calls that may throw *)

(** The value a call returns, or the exception it throws. *)
Inductive result (E A : Type) :=
  | Value (a : A)
  | Thrown (e : E).
Arguments Value {E A} a.
Arguments Thrown {E A} e.

(** A loop whose body may throw. *)
Fixpoint for_each_result {E S B} (body : S → B → result E S) (l : list B) (s : S)
    : result E S :=
  match l with
  | [] => Value s
  | b :: l' =>
      match body s b with
      | Value s' => for_each_result body l' s'
      | Thrown e => Thrown e
      end
  end.

(** * Configuration (Configuration.cpp) *)

Module Configuration.

Inductive exn :=
  | std_out_of_range
  | MissingKeyError (name key : string).

(** The two data members: the name and the key/value map. *)
Record Configuration := mkConfiguration {
  name_ : string;
  config_ : gmap string string
}.

(** [Configuration::Configuration(std::string name)]: no key yet. *)
Definition make (name : string) : Configuration :=
  {| name_ := name; config_ := ∅ |}.

(** [Configuration::Configuration()] delegates with the empty name. *)
Definition make_default : Configuration := make "".

(** [config_.find(key) != config_.cend()] *)
Definition has (key : string) (c : Configuration) : bool :=
  match config_ c !! key with
  | Some _ => true
  | None => false
  end.

Definition getName (c : Configuration) : string := name_ c.

(** [config_.at(key)]: the value, or [std::out_of_range]. *)
Definition at_ (key : string) (m : gmap string string) : result exn string :=
  match m !! key with
  | Some v => Value v
  | None => Thrown std_out_of_range
  end.

(** [getText(key)]: [std::out_of_range] is caught and replaced. *)
Definition getText (key : string) (c : Configuration) : result exn string :=
  match at_ key (config_ c) with
  | Value v => Value v
  | Thrown std_out_of_range => Thrown (MissingKeyError (getName c) key)
  | Thrown e => Thrown e
  end.

(** [getText(key, def)]: nothing is caught here. *)
Definition getText_default (key def : string) (c : Configuration) : result exn string :=
  if negb (has key c) then Value def else at_ key (config_ c).

End Configuration.

(** * ModuleFactory (ModuleFactory.cpp) *)

Module ModuleFactory.

(** [conf_] and [apx_]; [AllPix*] is a pointer, [None] the null pointer. *)
Record ModuleFactory := mkModuleFactory {
  conf_ : Configuration.Configuration;
  apx_ : option addr
}.

(** [ModuleFactory::ModuleFactory() : conf_(), apx_(nullptr)] *)
Definition make : ModuleFactory :=
  {| conf_ := Configuration.make_default; apx_ := None |}.

Definition setAllPix (allpix : option addr) (f : ModuleFactory) : ModuleFactory :=
  {| conf_ := conf_ f; apx_ := allpix |}.

Definition getAllPix (f : ModuleFactory) : option addr := apx_ f.

Definition setConfiguration (conf : Configuration.Configuration) (f : ModuleFactory)
    : ModuleFactory :=
  {| conf_ := conf; apx_ := apx_ f |}.

Definition getConfiguration (f : ModuleFactory) : Configuration.Configuration := conf_ f.

(** A call of one of the two setters. *)
Inductive setter :=
  | SetAllPix (allpix : option addr)
  | SetConfiguration (conf : Configuration.Configuration).

Definition do_set (f : ModuleFactory) (s : setter) : ModuleFactory :=
  match s with
  | SetAllPix allpix => setAllPix allpix f
  | SetConfiguration conf => setConfiguration conf f
  end.

(** The pointers, and the configurations, a sequence of calls hands over. *)
Definition pointers_set (ss : list setter) : list (option addr) :=
  omap (λ s, match s with SetAllPix p => Some p | SetConfiguration _ => None end) ss.

Definition configurations_set (ss : list setter) : list Configuration.Configuration :=
  omap (λ s, match s with SetConfiguration c => Some c | SetAllPix _ => None end) ss.

End ModuleFactory.

(** * LCIOWriterModule (LCIOWriterModule.cpp) *)

Module LCIOWriter.

(** The two exceptions of [std::stoi]. *)
Inductive stoi_exn := invalid_argument | out_of_range.

(** What an [InvalidValueError] of the constructor complains about, with
    the values its message is built from. *)
Inductive reason :=
  | id_out_of_range (sensor_id_unchecked : Z) (det_name : string)
  | id_not_an_integer (sensor_id_str det_name : string)
  | id_already_assigned (sensor_id : nat) (det_name : string)
  | not_three_entries (setup_entry : list string)
  | count_mismatch (in_configuration in_geometry : nat)
  | detector_not_configured (det_name : string).

Inductive exn :=
  | InvalidValueError (key : string) (why : reason)
  | std_out_of_range.

(** The four members the constructor fills. *)
Record members := mkMembers {
  col_to_dets_map_ : gmap string (list string);
  det_name_to_id_ : gmap string nat;
  det_id_to_col_index_ : gmap nat nat;
  col_name_vec_ : list string
}.

Definition unfilled : members :=
  {| col_to_dets_map_ := ∅; det_name_to_id_ := ∅;
     det_id_to_col_index_ := ∅; col_name_vec_ := [] |}.

(** [std::stoi(str)] as the C++ library defines it, base 10: white space
    is skipped, a sign is optional, the longest run of digits is read and
    what follows it is ignored; no digit gives [std::invalid_argument], a
    value that does not fit [int] gives [std::out_of_range]. *)
Definition isspace (a : Ascii.ascii) : bool :=
  let n := Ascii.nat_of_ascii a in (n =? 32) || ((9 <=? n) && (n <=? 13)).

Definition digit (a : Ascii.ascii) : option Z :=
  let n := Ascii.nat_of_ascii a in
  if (48 <=? n) && (n <=? 57) then Some (Z.of_nat (n - 48)) else None.

Fixpoint skip_space (s : string) : string :=
  match s with
  | String a s' => if isspace a then skip_space s' else s
  | EmptyString => s
  end.

Fixpoint digits (acc : Z) (s : string) : Z :=
  match s with
  | String a s' =>
      match digit a with
      | Some d => digits (10 * acc + d) s'
      | None => acc
      end
  | EmptyString => acc
  end.

Definition unsigned_value (s : string) : option Z :=
  match s with
  | String a _ =>
      match digit a with
      | Some _ => Some (digits 0 s)
      | None => None
      end
  | EmptyString => None
  end.

(** The sign: '-' is character 45, '+' character 43. *)
Definition signed_value (s : string) : option Z :=
  match skip_space s with
  | String a s' =>
      if Ascii.nat_of_ascii a =? 45 then Z.opp <$> unsigned_value s'
      else if Ascii.nat_of_ascii a =? 43 then unsigned_value s'
      else unsigned_value (String a s')
  | EmptyString => None
  end.

Definition std_stoi (str : string) : result stoi_exn Z :=
  match signed_value str with
  | Some v =>
      if (- 2 ^ 31 <=? v)%Z && (v <=? 2 ^ 31 - 1)%Z then Value v
      else Thrown out_of_range
  | None => Thrown invalid_argument
  end.

Section constructor.

(** [std::stoi], and the order in which a range-based [for] visits
    [col_to_dets_map_]; the member is declared in LCIOWriterModule.hpp. *)
Variable stoi : string → result stoi_exn Z.
Variable traverse : gmap string (list string) → list (string * list string).

(** Lines 385 to 400: the [try] block.  [std::invalid_argument] is the
    one exception caught. *)
Definition checked_id (sensor_id_str det_name : string) : result exn nat :=
  match stoi sensor_id_str with
  | Value sensor_id_unchecked =>
      if (0 <=? sensor_id_unchecked)%Z && (sensor_id_unchecked <=? 127)%Z
      then Value (Z.to_nat sensor_id_unchecked)
      else Thrown (InvalidValueError "setup" (id_out_of_range sensor_id_unchecked det_name))
  | Thrown invalid_argument =>
      Thrown (InvalidValueError "setup" (id_not_an_integer sensor_id_str det_name))
  | Thrown out_of_range => Thrown std_out_of_range
  end.

(** Lines 376 to 423: the body of the loop over the setup matrix; the
    state is [assigned_ids] and the members. *)
Definition read_entry (st : list nat * members) (setup_entry : list string)
    : result exn (list nat * members) :=
  match setup_entry with
  | [det_name; col_name; sensor_id_str] =>
      let cols :=
        <[col_name := default [] (col_to_dets_map_ st.2 !! col_name) ++ [det_name]]>
          (col_to_dets_map_ st.2) in
      match checked_id sensor_id_str det_name with
      | Value sensor_id =>
          if bool_decide (sensor_id ∈ st.1)
          then Thrown (InvalidValueError "setup" (id_already_assigned sensor_id det_name))
          else Value (st.1 ++ [sensor_id],
                      {| col_to_dets_map_ := cols;
                         det_name_to_id_ := <[det_name := sensor_id]> (det_name_to_id_ st.2);
                         det_id_to_col_index_ := det_id_to_col_index_ st.2;
                         col_name_vec_ := col_name_vec_ st.2 |})
      | Thrown e => Thrown e
      end
  | _ => Thrown (InvalidValueError "setup" (not_three_entries setup_entry))
  end.

Fixpoint read_setup (st : list nat * members) (setup : list (list string))
    : result exn (list nat * members) :=
  match setup with
  | [] => Value st
  | setup_entry :: rest =>
      match read_entry st setup_entry with
      | Value st' => read_setup st' rest
      | Thrown e => Thrown e
      end
  end.

(** Lines 431 to 432: [det_name_to_id_[det_name]] creates the entry, with
    id 0, when the name is not there. *)
Definition index_detector (index : nat) (st : gmap string nat * gmap nat nat)
    (det_name : string) : gmap string nat * gmap nat nat :=
  match st.1 !! det_name with
  | Some det_id => (st.1, <[det_id := index]> st.2)
  | None => (<[det_name := 0]> st.1, <[0 := index]> st.2)
  end.

(** Lines 426 to 434: one collection; the index is
    [col_name_vec_.size() - 1] after the name was appended. *)
Definition register_collection (m : members) (col_dets_pair : string * list string)
    : members :=
  let vec := col_name_vec_ m ++ [col_dets_pair.1] in
  let st := fold_left (index_detector (length vec - 1)) col_dets_pair.2
              (det_name_to_id_ m, det_id_to_col_index_ m) in
  {| col_to_dets_map_ := col_to_dets_map_ m;
     det_name_to_id_ := st.1;
     det_id_to_col_index_ := st.2;
     col_name_vec_ := vec |}.

Definition register_collections (m : members) : members :=
  fold_left register_collection (traverse (col_to_dets_map_ m)) m.

(** Lines 437 to 454: the geometry against the configuration;
    [detectors] are the names of [geo_mgr_->getDetectors()]. *)
Definition cross_check (setup : list (list string)) (detectors : list string)
    (m : members) : result exn members :=
  if negb (length setup =? length detectors)
  then Thrown (InvalidValueError "setup"
                 (count_mismatch (length setup) (length detectors)))
  else
    match List.find (λ det_name, bool_decide (det_name_to_id_ m !! det_name = None))
            detectors with
    | Some det_name => Thrown (InvalidValueError "setup" (detector_not_configured det_name))
    | None => Value m
    end.

(** Lines 373 to 455 of the constructor: from the setup matrix on.  The
    lines before bind the two message members and read scalar
    parameters; they do not touch the four members. *)
Definition construct (setup : list (list string)) (detectors : list string)
    : result exn members :=
  match read_setup ([], unfilled) setup with
  | Value (_, m) => cross_check setup detectors (register_collections m)
  | Thrown e => Thrown e
  end.

(** A well-formed setup entry: detector, collection and sensor id. *)
Definition row_of (setup_entry : list string) : option (string * string * nat) :=
  match setup_entry with
  | [det_name; col_name; sensor_id_str] =>
      match stoi sensor_id_str with
      | Value u =>
          if (0 <=? u)%Z && (u <=? 127)%Z
          then Some (det_name, col_name, Z.to_nat u)
          else None
      | Thrown _ => None
      end
  | _ => None
  end.

Fixpoint rows_of (setup : list (list string)) : option (list (string * string * nat)) :=
  match setup with
  | [] => Some []
  | setup_entry :: rest =>
      match row_of setup_entry, rows_of rest with
      | Some r, Some rs => Some (r :: rs)
      | _, _ => None
      end
  end.

(** The setups the constructor accepts, in words: every entry is
    well-formed, no sensor id occurs twice, there are as many entries as
    detectors in the geometry, and every detector of the geometry is
    named by an entry. *)
Definition acceptable (setup : list (list string)) (detectors : list string) : bool :=
  match rows_of setup with
  | Some rows =>
      bool_decide (NoDup (map snd rows))
      && (length setup =? length detectors)
      && forallb (λ det_name, bool_decide (det_name ∈ map (λ r, r.1.1) rows)) detectors
  | None => false
  end.

End constructor.

Definition returned {E A} (r : result E A) : bool :=
  match r with
  | Value _ => true
  | Thrown _ => false
  end.

(** The members after a well-formed row, and after a list of them. *)
Definition add_row (m : members) (r : string * string * nat) : members :=
  {| col_to_dets_map_ :=
       <[r.1.2 := default [] (col_to_dets_map_ m !! r.1.2) ++ [r.1.1]]> (col_to_dets_map_ m);
     det_name_to_id_ := <[r.1.1 := r.2]> (det_name_to_id_ m);
     det_id_to_col_index_ := det_id_to_col_index_ m;
     col_name_vec_ := col_name_vec_ m |}.

Definition loaded (rows : list (string * string * nat)) : members :=
  fold_left add_row rows unfilled.

Definition dets_of (col : string) (rows : list (string * string * nat)) : list string :=
  map (λ r, r.1.1) (List.filter (λ r, bool_decide (r.1.2 = col)) rows).

(** The id of a detector: that of the last row that names it. *)
Definition id_of (det_name : string) (rows : list (string * string * nat)) : option nat :=
  snd <$> last (List.filter (λ r, bool_decide (r.1.1 = det_name)) rows).

(** Does one of the detectors carry the id? *)
Definition has_id (names : gmap string nat) (id : nat) (dets : list string) : bool :=
  existsb (λ det, bool_decide (names !! det = Some id)) dets.

(** Every detector of every collection of the list has an id. *)
Definition all_named (names : gmap string nat) (L : list (string * list string)) : Prop :=
  Forall (λ cd, Forall (λ det, is_Some (names !! det)) cd.2) L.

(** ** run: the charge vectors and the output collections *)

(** [m[k]] of a [std::map]: the value under the key, which is created
    with the default [d] when it is not there. *)
Definition subscript `{Countable K} {V} (k : K) (d : V) (m : gmap K V) : V * gmap K V :=
  match m !! k with
  | Some v => (v, m)
  | None => (d, <[k := d]> m)
  end.

(** How [run] can fail in the two loops: an exception of
    [PixelHit::getMCParticles], or [output_col_vec[col_index]] past the
    end of the vector. *)
Inductive run_failure :=
  | MissingReferenceException
  | index_past_the_end (col_index size : nat).

Definition with_names (m : members) (names : gmap string nat) : members :=
  {| col_to_dets_map_ := col_to_dets_map_ m;
     det_name_to_id_ := names;
     det_id_to_col_index_ := det_id_to_col_index_ m;
     col_name_vec_ := col_name_vec_ m |}.


(** [m[k]] followed by pushes: nothing is created when nothing is pushed. *)
Definition appended {A} (o : option (list A)) (l : list A) : option (list A) :=
  match l with
  | [] => o
  | _ => Some (default [] o ++ l)
  end.

Section run.

(** The numbers: [float], the type of a pixel index and that of a signal,
    with the three values [run] stores, [static_cast<float>] of an index,
    of a signal, and of the literal [0.0]. *)
Context {float index double : Type}.
Variable cast_index : index → float.
Variable cast_signal : double → float.
Variable zero : float.

(** The order in which a range-based [for] visits [det_name_to_id_]. *)
Variable traverse_ids : gmap string nat → list (string * nat).

(** What [run] reads of a pixel hit.  [PixelHit::getMCParticles] is
    code of PixelHit.cpp; it returns the particles or throws. *)
Record PixelHit := mkPixelHit {
  index_x : index;
  index_y : index;
  getSignal : double;
  getMCParticles : result run_failure (list addr)
}.

(** A pixel hit message: the name of its detector and its hits. *)
Record PixelHitMessage := mkPixelHitMessage {
  getDetectorName : string;
  getData : list PixelHit
}.

(** The members and the locals of [run] that the two loops use. *)
Record frame := mkFrame {
  this : members;
  charges : gmap nat (list float);
  mcp_to_det_id : gmap addr nat;
  mcp_to_pixel_data_vec : gmap addr (list (list float))
}.

(** Lines 522 to 558: the [switch] over [pixel_type_].  Every case pushes
    the same values to [charges[det_id]] and to [this_hit_charge_vec]. *)
Definition this_hit_charge_vec (pixel_type_ : Z) (hitdata : PixelHit) : list float :=
  let xys := [cast_index (index_x hitdata); cast_index (index_y hitdata);
              cast_signal (getSignal hitdata)] in
  if (pixel_type_ =? 1)%Z then xys
  else if (pixel_type_ =? 5)%Z then xys ++ [zero; zero; zero; zero]
  else xys ++ [zero].

(** Lines 505 to 508. *)
Definition empty_charges (ids : list (string * nat)) : gmap nat (list float) :=
  fold_left (λ c det, <[det.2 := []]> c) ids ∅.

Definition enter (m : members) : frame :=
  {| this := m;
     charges := empty_charges (traverse_ids (det_name_to_id_ m));
     mcp_to_det_id := ∅;
     mcp_to_pixel_data_vec := ∅ |}.

(** Lines 560 to 563, one particle. *)
Definition note_particle (det_id : nat) (vec : list float) (fr : frame) (mcp : addr)
    : frame :=
  {| this := this fr;
     charges := charges fr;
     mcp_to_det_id := <[mcp := det_id]> (mcp_to_det_id fr);
     mcp_to_pixel_data_vec :=
       <[mcp := default [] (mcp_to_pixel_data_vec fr !! mcp) ++ [vec]]>
         (mcp_to_pixel_data_vec fr) |}.

(** Lines 513 to 564: one hit of a message of the detector [det_name]. *)
Definition fill_hit (pixel_type_ : Z) (det_name : string) (fr : frame)
    (hitdata : PixelHit) : result run_failure frame :=
  let det := subscript det_name 0 (det_name_to_id_ (this fr)) in
  let vec := this_hit_charge_vec pixel_type_ hitdata in
  match getMCParticles hitdata with
  | Value mcps =>
      Value (fold_left (note_particle det.1 vec) mcps
               {| this := with_names (this fr) det.2;
                  charges := <[det.1 := default [] (charges fr !! det.1) ++ vec]> (charges fr);
                  mcp_to_det_id := mcp_to_det_id fr;
                  mcp_to_pixel_data_vec := mcp_to_pixel_data_vec fr |})
  | Thrown e => Thrown e
  end.

(** The same for a hit paired with the name of its detector. *)
Definition fill_one (pixel_type_ : Z) (fr : frame) (hit : string * PixelHit)
    : result run_failure frame :=
  fill_hit pixel_type_ hit.1 fr hit.2.

(** Lines 511 to 565: all pixel messages. *)
Definition fill (pixel_type_ : Z) (pixel_messages_ : list PixelHitMessage) (fr : frame)
    : result run_failure frame :=
  for_each_result
    (λ fr hit_msg,
       for_each_result (fill_hit pixel_type_ (getDetectorName hit_msg)) (getData hit_msg) fr)
    pixel_messages_ fr.

(** Lines 577 to 581: the truth cluster of one particle. *)
Definition truth_cluster_charge_vec (pixel_data_vec : list (list float)) : list float :=
  fold_left (λ cluster pixel_hit_charge_vec, cluster ++ pixel_hit_charge_vec)
    pixel_data_vec [].




(** The hits of the messages, in the order of the loops, each with the
    name of its detector. *)
Definition hits_of (pixel_messages_ : list PixelHitMessage) : list (string * PixelHit) :=
  flat_map (λ hit_msg, map (λ hitdata, (getDetectorName hit_msg, hitdata)) (getData hit_msg))
    pixel_messages_.

(** The id [run] uses for a detector name. *)
Definition id_for (names : gmap string nat) (det_name : string) : nat :=
  default 0 (names !! det_name).

(** The hits of the detectors that carry the id. *)
Definition hits_with_id (names : gmap string nat) (det_id : nat)
    (hits : list (string * PixelHit)) : list PixelHit :=
  map snd (List.filter (λ hit, bool_decide (id_for names hit.1 = det_id)) hits).

(** The values per pixel. *)
Definition values_per_pixel (pixel_type_ : Z) : nat :=
  if (pixel_type_ =? 1)%Z then 3 else if (pixel_type_ =? 5)%Z then 7 else 4.

(** The particles of a hit, none when they cannot be fetched. *)
Definition particles_of (hitdata : PixelHit) : list addr :=
  match getMCParticles hitdata with
  | Value mcps => mcps
  | Thrown _ => []
  end.

(** One copy of the hit for every time it lists the particle. *)
Definition listings (mcp : addr) (hits : list (string * PixelHit)) : list (string * PixelHit) :=
  flat_map (λ hit, replicate (count_if (λ p, bool_decide (p = mcp)) (particles_of hit.2)) hit)
    hits.

End run.

(** A setup for the examples: two telescope planes and a device under
    test, in two collections. *)
Definition demo_matrix : list (list string) :=
  [["mimosa1"; "zsdata_m26"; "1"]; ["dut"; "zsdata_dut"; "20"];
   ["mimosa2"; "zsdata_m26"; "2"]].

Definition demo_detectors : list string := ["dut"; "mimosa1"; "mimosa2"].

Definition demo_members : members :=
  match construct std_stoi map_to_list demo_matrix demo_detectors with
  | Value m => m
  | Thrown _ => unfilled
  end.

(** Pixel messages for the examples: two hits of the device under test
    and one of the first plane, with numbers for the values. *)
Definition demo_messages : list (@PixelHitMessage Z Z) :=
  [mkPixelHitMessage "dut"
     [mkPixelHit 3%Z 4%Z 100%Z (Value [7; 8]); mkPixelHit 3%Z 5%Z 60%Z (Value [7])];
   mkPixelHitMessage "mimosa1" [mkPixelHit 10%Z 11%Z 40%Z (Value [7])]].

Definition demo_frame : @frame Z :=
  match fill id id 0%Z 2 demo_messages (enter map_to_list demo_members) with
  | Value fr => fr
  | Thrown _ => enter map_to_list demo_members
  end.

End LCIOWriter.

(** * PixelCharge (PixelCharge.cpp) *)

Module PixelCharge.

(** [MissingReferenceException], with the class that misses the object
    and the class of the object. *)
Inductive exn :=
  | MissingReferenceException (source reference : string).

Section PixelCharge.

(** ROOT's [TRef], with the comparison that orders a [std::set<TRef>]:
    the conversion of a pointer to a reference, [IsValid], [GetObject]
    (a null pointer is [None]), and the order in which the set is
    visited.  [Pixel] and [Pulse] are classes of their own files; of a
    pulse the constructors use [addCharge] on a new pulse and the charge
    as [static_cast<unsigned int>(std::abs(pulse.getCharge()))]. *)
Context `{Countable TRef} {Pixel Pulse : Type}.
Variable ref_to : addr → TRef.
Variable IsValid : TRef → bool.
Variable GetObject : TRef → option addr.
Variable ordered : gset TRef → list TRef.
Variable new_pulse : Pulse.
Variable addCharge : Pulse → nat → nat → Pulse.
Variable abs_charge : Pulse → nat.

(** [propagated_charge->mc_particle_], and the two [dynamic_cast]s, null
    when the object is of another class. *)
Variable mc_particle_ : addr → TRef.
Variable as_PropagatedCharge : addr → option addr.
Variable as_MCParticle : addr → option addr.

Record PixelCharge := mkPixelCharge {
  pixel_ : Pixel;
  charge_ : nat;
  pulse_ : Pulse;
  propagated_charges_ : list TRef;
  mc_particles_ : list TRef
}.

(** Lines 22 to 25: the loop over the propagated charges; the state is
    [propagated_charges_] and [unique_particles]. *)
Definition store_charge (st : list TRef * gset TRef) (propagated_charge : addr)
    : list TRef * gset TRef :=
  (st.1 ++ [ref_to propagated_charge], {[ mc_particle_ propagated_charge ]} ∪ st.2).

(** Lines 17 to 33. *)
Definition make (pixel : Pixel) (charge : nat) (propagated_charges : list addr)
    : PixelCharge :=
  let st := fold_left store_charge propagated_charges ([], ∅) in
  {| pixel_ := pixel;
     charge_ := charge;
     pulse_ := addCharge new_pulse charge 0;
     propagated_charges_ := st.1;
     mc_particles_ := fold_left (λ vec mc_particle, vec ++ [mc_particle]) (ordered st.2) [] |}.

(** Lines 36 to 39. *)
Definition make_from_pulse (pixel : Pixel) (pulse : Pulse) (propagated_charges : list addr)
    : PixelCharge :=
  let this := make pixel (abs_charge pulse) propagated_charges in
  {| pixel_ := pixel_ this;
     charge_ := charge_ this;
     pulse_ := pulse;
     propagated_charges_ := propagated_charges_ this;
     mc_particles_ := mc_particles_ this |}.

Definition getPixel (this : PixelCharge) : Pixel := pixel_ this.

Definition getCharge (this : PixelCharge) : nat := charge_ this.

Definition getPulse (this : PixelCharge) : Pulse := pulse_ this.

(** The body of the loops of lines 65 to 70 and 82 to 87. *)
Definition fetch (cast : addr → option addr) (class : string)
    (vec : list (option addr)) (reference : TRef) : result exn (list (option addr)) :=
  match IsValid reference, GetObject reference with
  | true, Some object => Value (vec ++ [cast object])
  | _, _ => Thrown (MissingReferenceException "PixelCharge" class)
  end.

(** Lines 62 to 72. *)
Definition getPropagatedCharges (this : PixelCharge) : result exn (list (option addr)) :=
  for_each_result (fetch as_PropagatedCharge "PropagatedCharge") (propagated_charges_ this) [].

(** Lines 79 to 91. *)
Definition getMCParticles (this : PixelCharge) : result exn (list (option addr)) :=
  for_each_result (fetch as_MCParticle "MCParticle") (mc_particles_ this) [].

(** Can the object of the reference be fetched? *)
Definition in_scope (reference : TRef) : bool :=
  IsValid reference && bool_decide (is_Some (GetObject reference)).

(** What is fetched, null for a reference out of scope. *)
Definition fetched (cast : addr → option addr) (reference : TRef) : option addr :=
  GetObject reference ≫= cast.

End PixelCharge.

(** A pixel charge for the examples: references are numbers, 0 is the
    invalid one and objects below 100 are in scope; the propagated charges
    11 and 12 come from particle 1, charge 21 from particle 2. *)
Definition demo_valid (reference : nat) : bool := negb (reference =? 0).

Definition demo_object (reference : nat) : option addr :=
  if reference <? 100 then Some reference else None.

Definition demo_particle (propagated_charge : addr) : nat := propagated_charge / 10.

Definition demo_charge : @PixelCharge nat unit (list (nat * nat)) :=
  make id elements [] (λ pulse charge bin, (charge, bin) :: pulse) demo_particle
    tt 100 [11; 12; 21].

End PixelCharge.

(** * Proofs *)

(** ** A first run *)

Example first_run :
  let w := exec (setup [BindSingle Hit 1 2 "dut"; BindSingle Hit 1 2 "dut"; BindMulti Hit 1 3 ""]
                 ;; run [ByPtr 0 "dut"; ByRef Hit 0 "x"]) (init [mkObject Hit 7]) in
  entry Hit "dut" (delegates_ w) = [0; 1] ∧ entry Hit "" (delegates_ w) = [2]
  ∧ calls w = [(0, 0); (1, 0); (2, 0); (2, 1)] ∧ single_slots w !! (1, 2) = Some 0
  ∧ multi_at (1, 3) w = [0; 1].
Proof. vm_compute. done. Qed.

(** ** Sequencing *)

Ltac unfold_monad := unfold mbind, M_bind, mret, M_ret in *.


Lemma exec_returned {A} (m : M A) (w w' : World) (a : A) :
  m w = Returned (a, w') → exec m w = w'.
Proof. unfold exec. intros ->. reflexivity. Qed.

(** ** The delegate map under [push_back] *)

Lemma entry_push_back (m : gmap type_index (gmap string (list delegate_ptr)))
    (type : type_index) (name : string) (d : delegate_ptr) (T : type_index) (C : string) :
  entry T C (<[type := <[name := default [] (default ∅ (m !! type) !! name) ++ [d]]>
                          (default ∅ (m !! type))]> m)
  = entry T C m ++ (if decide ((type, name) = (T, C)) then [d] else []).
Proof.
  unfold entry. destruct (decide (type = T)) as [->|HT].
  - rewrite lookup_insert_eq. destruct (decide (name = C)) as [->|HC].
    + rewrite lookup_insert_eq. rewrite decide_True by reflexivity.
      destruct (m !! T); reflexivity.
    + rewrite lookup_insert_ne by exact HC.
      rewrite decide_False by congruence. rewrite app_nil_r.
      destruct (m !! T); simpl; [reflexivity | rewrite lookup_empty; reflexivity].
  - rewrite lookup_insert_ne by exact HT.
    rewrite decide_False by congruence. rewrite app_nil_r. reflexivity.
Qed.

(** One registration: it returns, the new delegate sits at the next free
    address, and it is filed last under its key. *)
Lemma do_bind_returns (b : bind_call) (w : World) :
  ∃ w', do_bind b w = Returned (tt, w')
    ∧ delegate_store w' = delegate_store w ++ [delegate_of b]
    ∧ (∀ T C, entry T C (delegates_ w')
              = entry T C (delegates_ w)
                ++ (if decide (key_of b = (T, C)) then [length (delegate_store w)] else []))
    ∧ same_memory w w'.
Proof.
  destruct b as [R r m name|R r m name|R r m name]; eexists;
    (split; [reflexivity|]); simpl;
    (split; [reflexivity|]);
    (split; [intros T C; apply entry_push_back | by unfold same_memory]).
Qed.

Lemma registered_from_app (next : delegate_ptr) (T : type_index) (C : string)
    (bs1 bs2 : list bind_call) :
  registered_from next T C (bs1 ++ bs2)
  = registered_from next T C bs1 ++ registered_from (next + length bs1) T C bs2.
Proof.
  revert next. induction bs1 as [|b bs1 IH]; intros next; simpl.
  - rewrite Nat.add_0_r. reflexivity.
  - rewrite IH, <- app_assoc.
    replace (S next + length bs1) with (next + S (length bs1)) by lia. reflexivity.
Qed.

(** The setup phase: it returns, and every entry grows by the delegates
    registered for its key, in the order of the calls. *)
Lemma setup_returns (bs : list bind_call) (w : World) :
  ∃ w', setup bs w = Returned (tt, w')
    ∧ delegate_store w' = delegate_store w ++ map delegate_of bs
    ∧ (∀ T C, entry T C (delegates_ w')
              = entry T C (delegates_ w) ++ registered_from (length (delegate_store w)) T C bs)
    ∧ same_memory w w'.
Proof.
  revert w. induction bs as [|b bs IH]; intros w.
  - exists w. simpl. rewrite app_nil_r.
    split; [reflexivity|]. split; [reflexivity|].
    split; [intros T C; rewrite app_nil_r; reflexivity | by unfold same_memory].
  - destruct (do_bind_returns b w) as (w1 & Hb & Hs1 & He1 & Hm1).
    destruct (IH w1) as (w2 & Hbs & Hs2 & He2 & Hm2).
    exists w2. split; [|split; [|split]].
    + unfold setup in *. simpl. unfold_monad. rewrite Hb. exact Hbs.
    + rewrite Hs2, Hs1, <- app_assoc. reflexivity.
    + intros T C. rewrite He2, He1, Hs1, length_app, <- app_assoc. simpl.
      rewrite Nat.add_1_r. reflexivity.
    + unfold same_memory in *. intuition congruence.
Qed.

(** ** What a round of calls does to the memory *)

Lemma multi_at_insert (slot k : module_ptr * member_ptr) (v : list addr) (w w' : World) :
  multi_slots w' = <[slot := v]> (multi_slots w) →
  multi_at k w' = if decide (slot = k) then v else multi_at k w.
Proof.
  intros H. unfold multi_at. rewrite H. destruct (decide (slot = k)) as [->|Hne].
  - rewrite lookup_insert_eq. reflexivity.
  - rewrite lookup_insert_ne by exact Hne. reflexivity.
Qed.

Lemma call_returns (d : delegate_ptr) (p : addr) (w : World) :
  ∃ w', call d p w = Returned (tt, w')
    ∧ same_registry w w' ∧ objects w' = objects w
    ∧ calls w' = calls w ++ [(d, p)]
    ∧ heard w' = heard w ++ omap (hears p) (bound (delegate_store w) [d])
    ∧ (∀ k, single_slots w' !! k
            = if existsb (writes_single k) (bound (delegate_store w) [d])
              then Some p else single_slots w !! k)
    ∧ (∀ k, multi_at k w'
            = multi_at k w
              ++ replicate (count_if (appends_multi k) (bound (delegate_store w) [d])) p).
Proof.
  unfold call, bound, count_if. unfold_monad. simpl.
  destruct (delegate_store w !! d) as [[R r m|R r m|R r m]|] eqn:Hd; simpl;
    eexists; (split; [reflexivity|]); simpl;
    (split; [by unfold same_registry|]); (split; [reflexivity|]);
    (split; [reflexivity|]).
  - split; [reflexivity|]. split; intros k; [reflexivity | by rewrite app_nil_r].
  - split; [by rewrite app_nil_r|]. split; intros k.
    + rewrite orb_false_r. case_bool_decide as Hk.
      * rewrite Hk. apply lookup_insert_eq.
      * apply lookup_insert_ne. exact Hk.
    + by rewrite app_nil_r.
  - split; [by rewrite app_nil_r|]. split; intros k; [reflexivity|].
    erewrite multi_at_insert by reflexivity.
    case_bool_decide as Hk.
    + rewrite decide_True by exact Hk. rewrite Hk. reflexivity.
    + rewrite decide_False by exact Hk. simpl. by rewrite app_nil_r.
  - split; [by rewrite app_nil_r|]. split; intros k; [reflexivity | by rewrite app_nil_r].
Qed.

Lemma bound_cons (store : list BaseDelegate) (d : delegate_ptr) (ds : list delegate_ptr) :
  bound store (d :: ds) = bound store [d] ++ bound store ds.
Proof. unfold bound. simpl. destruct (store !! d); reflexivity. Qed.

Lemma count_if_app {A} (f : A → bool) (l1 l2 : list A) :
  count_if f (l1 ++ l2) = count_if f l1 + count_if f l2.
Proof. unfold count_if. rewrite List.filter_app, length_app. reflexivity. Qed.

(** A round of calls with one message: every call is made, in order; the
    listeners hear the message, the single slots written hold it, the vector
    slots grow by one copy of the pointer per delegate bound to them. *)
Lemma call_all_returns (ds : list delegate_ptr) (p : addr) (w : World) :
  ∃ w', for_each ds (λ d, call d p) w = Returned (tt, w')
    ∧ same_registry w w' ∧ objects w' = objects w
    ∧ calls w' = calls w ++ map (λ d, (d, p)) ds
    ∧ heard w' = heard w ++ omap (hears p) (bound (delegate_store w) ds)
    ∧ (∀ k, single_slots w' !! k
            = if existsb (writes_single k) (bound (delegate_store w) ds)
              then Some p else single_slots w !! k)
    ∧ (∀ k, multi_at k w'
            = multi_at k w
              ++ replicate (count_if (appends_multi k) (bound (delegate_store w) ds)) p).
Proof.
  revert w. induction ds as [|d ds IH]; intros w.
  - exists w. simpl. split; [reflexivity|]. split; [by unfold same_registry|].
    split; [reflexivity|]. rewrite !app_nil_r.
    split; [reflexivity|]. split; [reflexivity|].
    split; intros k; [reflexivity | by rewrite app_nil_r].
  - destruct (call_returns d p w) as (w1 & Hc & [Hr1 Hs1] & Ho1 & Hc1 & Hh1 & Hsi1 & Hmu1).
    destruct (IH w1) as (w2 & Hcs & [Hr2 Hs2] & Ho2 & Hc2 & Hh2 & Hsi2 & Hmu2).
    exists w2. rewrite Hs1 in *.
    split; [simpl; unfold_monad; rewrite Hc; exact Hcs|].
    split; [unfold same_registry; split; congruence|].
    split; [congruence|].
    split; [rewrite Hc2, Hc1, <- app_assoc; reflexivity|].
    rewrite (bound_cons _ d ds).
    split; [rewrite Hh2, Hh1, omap_app, <- app_assoc; reflexivity|].
    split; intros k.
    + rewrite Hsi2, Hsi1, existsb_app.
      destruct (existsb (writes_single k) (bound (delegate_store w) ds));
        [by rewrite orb_true_r | by rewrite orb_false_r].
    + rewrite Hmu2, Hmu1, count_if_app, replicate_add, <- app_assoc. reflexivity.
Qed.

(** ** One dispatch *)

Lemma round_effect_nil (p : addr) (w : World) : round_effect [] p w w.
Proof.
  unfold round_effect, same_registry. simpl. rewrite !app_nil_r.
  split; [by split|]. split; [reflexivity|]. split; [reflexivity|].
  split; intros k; [reflexivity | by rewrite app_nil_r].
Qed.

Lemma dispatchMessage_returns (msg : addr) (name : string) (w : World) :
  ∃ w', dispatchMessage msg name w = Returned (tt, w')
    ∧ objects w' = objects w
    ∧ round_effect (targets (ByPtr msg name) w) msg w w'.
Proof.
  unfold dispatchMessage, targets, delivery, object_at, get_delegates. unfold_monad.
  destruct (objects w !! msg) as [o|] eqn:Ho; simpl.
  - destruct (call_all_returns (receivers (dyn_type o) name (delegates_ w)) msg w)
      as (w' & Hr & Hreg & Hobj & Hrest).
    exists w'. split; [exact Hr|]. split; [exact Hobj|]. split; [exact Hreg | exact Hrest].
  - exists w. split; [reflexivity|]. split; [reflexivity | apply round_effect_nil].
Qed.

Lemma handed_ByPtr (msg : addr) (name : string) (w : World) :
  targets (ByPtr msg name) w = [] ∨ handed (ByPtr msg name) w = msg.
Proof.
  unfold targets, handed, delivery. destruct (objects w !! msg); simpl; auto.
Qed.

(** Every dispatch call returns; it creates the objects [copies] lists, leaves
    the delegate map and the delegates alone, and makes one round of calls. *)
Lemma do_dispatch_returns (c : dispatch_call) (w : World) :
  ∃ w', do_dispatch c w = Returned (tt, w')
    ∧ objects w' = objects w ++ copies c w
    ∧ round_effect (targets c w) (handed c w) w w'.
Proof.
  destruct c as [T msg name|T msg name|msg name]; simpl.
  - unfold dispatchMessage_ref, object_at, make_shared. unfold_monad.
    unfold targets, handed, delivery. simpl.
    destruct (objects w !! msg) as [o|] eqn:Ho; simpl.
    + match goal with |- context [dispatchMessage _ _ ?w1] => set (w1' := w1) end.
      destruct (dispatchMessage_returns (length (objects w)) name w1')
        as (w' & Hr & Hobj & Heff).
      exists w'. split; [exact Hr|]. split; [exact Hobj|].
      unfold targets, delivery in Heff. simpl in Heff.
      rewrite lookup_app_r in Heff by lia. rewrite Nat.sub_diag in Heff.
      exact Heff.
    + exists w. split; [reflexivity|]. split; [by rewrite app_nil_r | apply round_effect_nil].
  - unfold dispatchMessage_shared.
    destruct (dispatchMessage_returns msg name w) as (w' & Hr & Hobj & Heff).
    exists w'. split; [exact Hr|]. split; [by rewrite app_nil_r|].
    destruct (handed_ByPtr msg name w) as [Hn|Hh].
    + unfold targets, delivery in *. simpl in *.
      destruct (objects w !! msg); simpl in *; [|exact Heff].
      rewrite Hn in *. exact Heff.
    + unfold targets, handed, delivery in *. simpl in *.
      destruct (objects w !! msg); simpl in *; exact Heff.
  - destruct (dispatchMessage_returns msg name w) as (w' & Hr & Hobj & Heff).
    exists w'. split; [exact Hr|]. split; [by rewrite app_nil_r|].
    unfold targets, handed, delivery in *. simpl in *.
    destruct (objects w !! msg); simpl in *; exact Heff.
Qed.

(** ** Sequences of dispatch calls *)

Lemma run_returns (cs : list dispatch_call) (w : World) :
  ∃ w', run cs w = Returned (tt, w') ∧ same_registry w w'
    ∧ ∃ extra, objects w' = objects w ++ extra.
Proof.
  revert w. induction cs as [|c cs IH]; intros w.
  - exists w. split; [reflexivity|]. split; [by unfold same_registry|].
    exists []. by rewrite app_nil_r.
  - destruct (do_dispatch_returns c w) as (w1 & Hc & Ho1 & [Hr1 Hs1] & _).
    destruct (IH w1) as (w2 & Hcs & [Hr2 Hs2] & extra & Ho2).
    exists w2. split; [unfold run in *; simpl; unfold_monad; rewrite Hc; exact Hcs|].
    split; [unfold same_registry; split; congruence|].
    exists (copies c w ++ extra). rewrite Ho2, Ho1, <- app_assoc. reflexivity.
Qed.





(** The registry of a bus after setup, whatever was dispatched since: the
    i-th registration made the delegate at address i, and every entry lists
    the delegates registered for its key in the order of the calls. *)
Lemma after_registry (bs : list bind_call) (cs : list dispatch_call) (objs : list Object) :
  delegate_store (after bs cs objs) = map delegate_of bs
  ∧ ∀ T C, entry T C (delegates_ (after bs cs objs)) = registered T C bs.
Proof.
  unfold after, exec. unfold_monad.
  destruct (setup_returns bs (init objs)) as (w1 & H1 & Hs1 & He1 & _).
  destruct (run_returns cs w1) as (w2 & H2 & [Hr2 Hs2] & _).
  rewrite H1, H2. rewrite Hs2, Hr2, Hs1. split; [reflexivity|].
  intros T C. rewrite He1. reflexivity.
Qed.

(** ** The addresses of the registered delegates *)

Lemma elem_of_registered_from (d next : delegate_ptr) (T : type_index) (C : string)
    (bs : list bind_call) :
  d ∈ registered_from next T C bs
  ↔ ∃ i b, bs !! i = Some b ∧ key_of b = (T, C) ∧ d = next + i.
Proof.
  revert next. induction bs as [|b bs IH]; intros next; simpl.
  - split; [intros H; inversion H | intros (i & b & H & _); inversion H].
  - rewrite elem_of_app, IH. split.
    + intros [H|(i & b' & Hi & Hk & ->)].
      * destruct (decide (key_of b = (T, C))) as [Hk|]; [|inversion H].
        apply list_elem_of_singleton in H as ->.
        exists 0, b. rewrite Nat.add_0_r. auto.
      * exists (S i), b'. split; [exact Hi|]. split; [exact Hk | lia].
    + intros (i & b' & Hi & Hk & ->). destruct i as [|i]; simpl in Hi.
      * injection Hi as ->. left. rewrite decide_True by exact Hk.
        rewrite Nat.add_0_r. apply list_elem_of_singleton. reflexivity.
      * right. exists i, b'. split; [exact Hi|]. split; [exact Hk | lia].
Qed.








(** The receivers of a dispatch on a bus set up by [bs]. *)
Lemma receivers_after (bs : list bind_call) (cs : list dispatch_call) (objs : list Object)
    (T : type_index) (name : string) :
  receivers T name (delegates_ (after bs cs objs)) = routed_delegates T name bs.
Proof.
  destruct (after_registry bs cs objs) as [_ He].
  unfold receivers, routed_delegates. rewrite !He. reflexivity.
Qed.

(** ** Counting the routed registrations *)








(** ** Registration and dispatch in any order *)

Lemma play_returns (ops : list op) (w : World) :
  ∃ w', play ops w = Returned (tt, w')
    ∧ delegate_store w' = delegate_store w ++ map delegate_of (binds ops)
    ∧ ∀ T C, entry T C (delegates_ w')
             = entry T C (delegates_ w)
               ++ registered_from (length (delegate_store w)) T C (binds ops).
Proof.
  revert w. induction ops as [|o ops IH]; intros w.
  - exists w. simpl. rewrite app_nil_r. split; [reflexivity|]. split; [reflexivity|].
    intros T C. by rewrite app_nil_r.
  - destruct o as [b|c].
    + destruct (do_bind_returns b w) as (w1 & Hb & Hs1 & He1 & _).
      destruct (IH w1) as (w2 & Hops & Hs2 & He2).
      exists w2. split; [unfold play in *; simpl; unfold_monad; rewrite Hb; exact Hops|].
      simpl. split; [rewrite Hs2, Hs1, <- app_assoc; reflexivity|].
      intros T C. rewrite He2, He1, Hs1, length_app, <- app_assoc. simpl.
      rewrite Nat.add_1_r. reflexivity.
    + destruct (do_dispatch_returns c w) as (w1 & Hc & _ & [Hr1 Hs1] & _).
      destruct (IH w1) as (w2 & Hops & Hs2 & He2).
      exists w2. split; [unfold play in *; simpl; unfold_monad; rewrite Hc; exact Hops|].
      simpl. rewrite Hs2, Hs1. split; [reflexivity|].
      intros T C. rewrite He2, Hr1, Hs1. reflexivity.
Qed.

(** C5.  Every registration call returns with its new delegate, created at
    the next free address, appended at the end of the entry of its key and
    every other entry as it was; a dispatch call leaves the delegate map and
    the delegates as they were; so after any sequence of registrations and
    dispatches every entry lists the delegates registered for its key in the
    order of the registration calls. *)
Theorem registration_order :
  (∀ (b : bind_call) (w : World),
     ∃ w', do_bind b w = Returned (tt, w')
       ∧ delegate_store w' = delegate_store w ++ [delegate_of b]
       ∧ ∀ T C, entry T C (delegates_ w')
                = entry T C (delegates_ w)
                  ++ (if decide (key_of b = (T, C)) then [length (delegate_store w)] else []))
  ∧ (∀ (c : dispatch_call) (w : World),
       ∃ w', do_dispatch c w = Returned (tt, w')
         ∧ delegates_ w' = delegates_ w ∧ delegate_store w' = delegate_store w)
  ∧ (∀ (ops : list op) (objs : list Object),
       ∃ w, play ops (init objs) = Returned (tt, w)
         ∧ delegate_store w = map delegate_of (binds ops)
         ∧ ∀ T C, entry T C (delegates_ w) = registered T C (binds ops)).
Proof.
  split; [|split].
  - intros b w. destruct (do_bind_returns b w) as (w' & H & Hs & He & _). eauto.
  - intros c w. destruct (do_dispatch_returns c w) as (w' & H & _ & [Hr Hs] & _). eauto.
  - intros ops objs. destruct (play_returns ops (init objs)) as (w & H & Hs & He).
    exists w. split; [exact H|]. split; [exact Hs|]. intros T C. rewrite He. reflexivity.
Qed.

(** ** Dispatch order *)



(** ** A message without receivers *)

(** C8.  A dispatch call whose message has a class and a channel for which
    no delegate is filed returns normally and changes neither the delegate
    map, nor the delegates, nor any bound member, nor the traces. *)
Theorem dispatch_without_receivers (c : dispatch_call) (w : World) (p : addr) (T : type_index) :
  delivery c w = Some (p, T) →
  receivers T (channel c) (delegates_ w) = [] →
  ∃ w', do_dispatch c w = Returned (tt, w')
    ∧ delegates_ w' = delegates_ w ∧ delegate_store w' = delegate_store w
    ∧ single_slots w' = single_slots w ∧ multi_slots w' = multi_slots w
    ∧ heard w' = heard w ∧ calls w' = calls w.
Proof.
  intros Hd Hnone. destruct c as [T' msg name|T' msg name|msg name]; simpl in *.
  - destruct (objects w !! msg) as [o|] eqn:Ho; simpl in Hd; [|discriminate].
    injection Hd as <- <-.
    unfold dispatchMessage_ref, dispatchMessage, object_at, make_shared, get_delegates.
    unfold_monad. rewrite Ho. simpl.
    rewrite lookup_app_r by lia. rewrite Nat.sub_diag. simpl.
    rewrite Hnone. simpl. eexists. split; [reflexivity|]. simpl. tauto.
  - destruct (objects w !! msg) as [o|] eqn:Ho; simpl in Hd; [|discriminate].
    injection Hd as <- <-.
    unfold dispatchMessage_shared, dispatchMessage, object_at, get_delegates.
    unfold_monad. rewrite Ho. simpl. rewrite Hnone. simpl.
    exists w. tauto.
  - destruct (objects w !! msg) as [o|] eqn:Ho; simpl in Hd; [|discriminate].
    injection Hd as <- <-.
    unfold dispatchMessage, object_at, get_delegates.
    unfold_monad. rewrite Ho. simpl. rewrite Hnone. simpl.
    exists w. tauto.
Qed.

(** ** Dispatch by reference *)

Lemma Forall_hears (p : addr) (l : list BaseDelegate) :
  Forall (λ e : module_ptr * member_ptr * addr, e.2 = p) (omap (hears p) l).
Proof.
  induction l as [|d l IH]; simpl; [constructor|].
  destruct d; simpl; [constructor; [reflexivity | exact IH] | exact IH | exact IH].
Qed.

(** C9.  Dispatching the object at address [msg] by reference creates one
    new object, the copy made by the copy constructor of [T], at a new
    address; every call made on a delegate, every listener entered, every
    single slot written and every entry appended to a vector slot gets that
    one new address, never [msg]; the object at [msg] is as it was. *)
Theorem dispatch_by_reference_copies (T : type_index) (msg : addr) (name : string)
    (w : World) (o : Object) :
  objects w !! msg = Some o →
  ∃ w' hs,
    dispatchMessage_ref T msg name w = Returned (tt, w')
    ∧ length (objects w) ≠ msg
    ∧ objects w' = objects w ++ [copy_construct T o]
    ∧ objects w' !! msg = Some o
    ∧ calls w' = calls w ++ map (λ d, (d, length (objects w))) (receivers T name (delegates_ w))
    ∧ heard w' = heard w ++ hs
    ∧ Forall (λ e, e.2 = length (objects w)) hs
    ∧ (∀ k, single_slots w' !! k = single_slots w !! k
            ∨ single_slots w' !! k = Some (length (objects w)))
    ∧ (∀ k, ∃ n, multi_at k w' = multi_at k w ++ replicate n (length (objects w))).
Proof.
  intros Ho.
  destruct (do_dispatch_returns (ByRef T msg name) w)
    as (w' & Hr & Hobj & _ & Hc & Hh & Hs & Hm).
  unfold targets, handed, copies, delivery in *. simpl in *. rewrite Ho in *. simpl in *.
  exists w', (omap (hears (length (objects w)))
               (bound (delegate_store w) (receivers T name (delegates_ w)))).
  split; [exact Hr|].
  split; [apply lookup_lt_Some in Ho; lia|].
  split; [exact Hobj|].
  split; [rewrite Hobj; apply lookup_app_l_Some; exact Ho|].
  split; [exact Hc|]. split; [exact Hh|]. split; [apply Forall_hears|].
  split; intros k.
  - specialize (Hs k). destruct (existsb _ _); [right | left]; exact Hs.
  - eexists. apply Hm.
Qed.

(** ** Dispatch by class *)

(** The pointer overloads route by the class the object was constructed
    as: on a bus set up by [bs], every delegate they call was created by a
    registration for exactly that class. *)
Lemma pointer_dispatch_by_class (bs : list bind_call) (cs : list dispatch_call)
    (objs : list Object) (T : type_index) (msg : addr) (name : string) (o : Object) :
  objects (after bs cs objs) !! msg = Some o →
  ∃ w' tr,
    dispatchMessage_shared T msg name (after bs cs objs) = Returned (tt, w')
    ∧ calls w' = calls (after bs cs objs) ++ tr
    ∧ Forall (λ e, e.2 = msg ∧ ∃ b, bs !! e.1 = Some b ∧ (key_of b).1 = dyn_type o) tr.
Proof.
  intros Ho.
  destruct (do_dispatch_returns (ByShared T msg name) (after bs cs objs))
    as (w' & Hr & _ & _ & Hc & _).
  unfold targets, handed, delivery in Hc. simpl in *. rewrite Ho in Hc. simpl in Hc.
  rewrite receivers_after in Hc.
  eexists w', _. split; [exact Hr|]. split; [exact Hc|].
  apply Forall_forall. intros e He. apply list_elem_of_fmap in He as (d & -> & Hd).
  split; [reflexivity|]. simpl.
  unfold routed_delegates, registered in Hd. apply elem_of_app in Hd as [Hd|Hd].
  - apply elem_of_registered_from in Hd as (i & b & Hi & Hk & ->).
    exists b. rewrite Hk. auto.
  - destruct (decide (name = "")); [inversion Hd|].
    apply elem_of_registered_from in Hd as (i & b & Hi & Hk & ->).
    exists b. rewrite Hk. auto.
Qed.

(** C1.  A module listens for [Hit], another for [DerivedHit].  The object at
    address 0 was constructed as a [DerivedHit].  Passed as [const Hit &], it
    is copied into a [Hit]: the listener for the base class [Hit] is called,
    with the copy, and the listener for [DerivedHit] is not.  Passed as
    [std::shared_ptr<Hit>], the same object reaches the listener for
    [DerivedHit] only. *)
Theorem reference_to_derived_is_sliced :
  ∃ w1 w2 : World,
    dispatchMessage_ref Hit 0 ""
      (after [RegisterListener Hit 1 1 ""; RegisterListener DerivedHit 2 1 ""] []
             [mkObject DerivedHit 7])
    = Returned (tt, w1)
    ∧ calls w1 = [(0, 1)] ∧ heard w1 = [(1, 1, 1)]
    ∧ objects w1 = [mkObject DerivedHit 7; mkObject Hit 7]
    ∧ dispatchMessage_shared Hit 0 ""
        (after [RegisterListener Hit 1 1 ""; RegisterListener DerivedHit 2 1 ""] []
               [mkObject DerivedHit 7])
      = Returned (tt, w2)
    ∧ calls w2 = [(1, 0)] ∧ heard w2 = [(2, 1, 0)].
Proof.
  eexists _, _. split; [vm_compute; reflexivity|]. split; [reflexivity|].
  split; [reflexivity|]. split; [reflexivity|].
  split; [vm_compute; reflexivity|]. split; reflexivity.
Qed.

(** ** Registering twice *)



(** ** Bound members over a sequence of dispatches *)










(** ** Two identical registrations *)






(** * Requirement validation *)

Lemma received_snoc (g : Binding) (ds : list (type_index * string))
    (type : type_index) (name : string) :
  received g (ds ++ [(type, name)])
  = received g ds + (if matches g type name then 1 else 0).
Proof.
  unfold received. rewrite count_if_app. unfold count_if at 2. simpl.
  destruct (matches g type name); reflexivity.
Qed.

Lemma replay_flags (gs : list Binding) (h : list event) :
  replay h (map new_record gs)
  = map (λ g, {| binding := g;
                 satisfied_cycle := negb (received g (in_scope Cycle h) =? 0);
                 satisfied_run := negb (received g (in_scope Run h) =? 0) |}) gs.
Proof.
  induction h as [|e h IH] using rev_ind.
  - reflexivity.
  - unfold replay, in_scope in *. rewrite !fold_left_app. simpl. rewrite IH.
    unfold record_step. destruct e as [|type name]; simpl.
    + rewrite map_map. reflexivity.
    + rewrite map_map. apply map_ext. intros g. unfold mark. simpl.
      rewrite !received_snoc.
      destruct (matches g type name); simpl.
      * rewrite !Nat.add_1_r. reflexivity.
      * rewrite !Nat.add_0_r. reflexivity.
Qed.

Lemma filter_map_comm {A B} (f : B → bool) (g : A → B) (l : list A) :
  List.filter f (map g l) = map g (List.filter (λ a, f (g a)) l).
Proof.
  induction l as [|a l IH]; simpl; [reflexivity|].
  destruct (f (g a)); simpl; congruence.
Qed.

Lemma unsatisfied_starved (s : Scope) (gs : list Binding) (h : list event) :
  unsatisfied s (replay h (map new_record gs))
  = map (λ g, {| binding := g;
                 satisfied_cycle := negb (received g (in_scope Cycle h) =? 0);
                 satisfied_run := negb (received g (in_scope Run h) =? 0) |})
      (List.filter (starved (in_scope s h)) gs).
Proof.
  rewrite replay_flags. unfold unsatisfied. rewrite filter_map_comm.
  f_equal. apply List.filter_ext. intros g. unfold starved.
  destruct s; simpl; rewrite negb_involutive; reflexivity.
Qed.

(** C7.  After any history of cycle starts and dispatches,
    [checkRequirements] passes exactly when no REQUIRED binding received
    zero matching dispatches in the scope checked, and the tuples it reports
    are those of the REQUIRED bindings that received none; an OPTIONAL
    binding is never among the causes, whatever it received. *)
Theorem checkRequirements_reports (s : Scope) (gs : list Binding) (h : list event) :
  checkRequirements s (replay h (map new_record gs))
  = (forallb (λ g, negb (is_required g && (received g (in_scope s h) =? 0))) gs,
     map tuple_of (List.filter (λ g, is_required g && (received g (in_scope s h) =? 0)) gs)).
Proof.
  unfold checkRequirements. rewrite unsatisfied_starved, map_map. simpl.
  f_equal. unfold starved.
  induction gs as [|g gs IH]; simpl; [reflexivity|].
  destruct (is_required g && _); simpl; [reflexivity | exact IH].
Qed.

(** * The statements at concrete inputs *)


(** A [DerivedHit] sent on "telescope" by [std::shared_ptr<Hit>] when nothing
    is registered for [DerivedHit]. *)
Lemma dispatch_without_receivers_witness :
  delivery (ByShared Hit 2 "telescope") (after [BindSingle Hit 1 2 "dut"] [] demo_objects)
  = Some (2, DerivedHit)
  ∧ receivers DerivedHit "telescope"
      (delegates_ (after [BindSingle Hit 1 2 "dut"] [] demo_objects)) = []
  ∧ do_dispatch (ByShared Hit 2 "telescope") (after [BindSingle Hit 1 2 "dut"] [] demo_objects)
    = Returned (tt, after [BindSingle Hit 1 2 "dut"] [] demo_objects).
Proof.
  split; [reflexivity|]. split; [reflexivity|].
  destruct (dispatch_without_receivers (ByShared Hit 2 "telescope")
              (after [BindSingle Hit 1 2 "dut"] [] demo_objects) 2 DerivedHit
              eq_refl eq_refl) as (w' & Hr & _).
  reflexivity.
Defined.

(** The [Hit] at address 1 sent by reference: the receivers get address 3. *)
Lemma dispatch_by_reference_copies_witness :
  objects (after demo_setup [] demo_objects) !! 1 = Some (mkObject Hit 8)
  ∧ ∃ w', dispatchMessage_ref Hit 1 "dut" (after demo_setup [] demo_objects) = Returned (tt, w')
      ∧ objects w' = demo_objects ++ [mkObject Hit 8]
      ∧ calls w' = [(0, 3); (2, 3); (3, 3); (1, 3)].
Proof.
  split; [reflexivity|].
  destruct (dispatch_by_reference_copies Hit 1 "dut" (after demo_setup [] demo_objects)
              (mkObject Hit 8) eq_refl)
    as (w' & hs & Hr & _ & Ho & _ & Hc & _).
  exists w'. split; [exact Hr|]. split; [rewrite Ho; reflexivity|].
  rewrite Hc. reflexivity.
Defined.




(** The scenario of the specification: module 1 binds a REQUIRED single slot
    for [Hit] on the empty channel; one [Hit] in cycle 1, none in cycle 2. *)
Example required_hit_two_cycles :
  checkRequirements Cycle
    (replay [BeginCycle; Dispatched Hit ""] [new_record (mkBinding 1 Hit "" REQUIRED SingleBind)])
  = (true, [])
  ∧ checkRequirements Cycle
      (replay [BeginCycle; Dispatched Hit ""; BeginCycle]
         [new_record (mkBinding 1 Hit "" REQUIRED SingleBind)])
    = (false, [(1, Hit, "")])
  ∧ checkRequirements Run
      (replay [BeginCycle; Dispatched Hit ""; BeginCycle]
         [new_record (mkBinding 1 Hit "" REQUIRED SingleBind)])
    = (true, []).
Proof. repeat split; reflexivity. Qed.

(** * Further parts of the framework: proofs *)

(** ** The registry after setup *)

(** The world a setup phase leaves behind. *)
Lemma exec_setup (bs : list bind_call) (objs : list Object) :
  setup bs (init objs) = Returned (tt, exec (setup bs) (init objs))
  ∧ delegate_store (exec (setup bs) (init objs)) = map delegate_of bs
  ∧ (∀ T C, entry T C (delegates_ (exec (setup bs) (init objs))) = registered T C bs)
  ∧ same_memory (init objs) (exec (setup bs) (init objs)).
Proof.
  destruct (setup_returns bs (init objs)) as (w & Hr & Hs & He & Hm).
  rewrite (exec_returned _ _ _ _ Hr). split; [exact Hr|]. split; [exact Hs|].
  split; [|exact Hm]. intros T C. rewrite He. reflexivity.
Qed.

(** X1.  After a setup phase on a fresh bus, every pointer filed under
    (T, C) designates a delegate that exists and was constructed for the
    message class T. *)
Theorem entries_hold_delegates_of_their_class (bs : list bind_call) (objs : list Object)
    (T : type_index) (C : string) :
  Forall (λ d, ∃ del, delegate_store (exec (setup bs) (init objs)) !! d = Some del
                      ∧ delegate_class del = T)
         (entry T C (delegates_ (exec (setup bs) (init objs)))).
Proof.
  destruct (exec_setup bs objs) as (_ & Hs & He & _). rewrite Hs, He.
  apply Forall_forall. intros d Hd.
  apply elem_of_registered_from in Hd as (i & b & Hi & Hk & ->). simpl.
  exists (delegate_of b). rewrite list_lookup_fmap, Hi. split; [reflexivity|].
  destruct b; simpl in *; congruence.
Qed.

Lemma count_registered_from (d next : delegate_ptr) (T : type_index) (C : string)
    (bs : list bind_call) :
  count_if (λ d', bool_decide (d' = d)) (registered_from next T C bs)
  = if decide (next ≤ d)
    then match bs !! (d - next) with
         | Some b => if decide (key_of b = (T, C)) then 1 else 0
         | None => 0
         end
    else 0.
Proof.
  revert next. induction bs as [|b bs IH]; intros next; simpl.
  - destruct (decide (next ≤ d)); reflexivity.
  - rewrite count_if_app, IH. clear IH.
    destruct (decide (next ≤ d)) as [Hle|Hgt].
    + destruct (decide (next = d)) as [->|Hne].
      * rewrite Nat.sub_diag. simpl. rewrite (decide_False (P := S d ≤ d)) by lia.
        destruct (decide (key_of b = (T, C))); unfold count_if; simpl;
          [rewrite bool_decide_eq_true_2 by reflexivity|]; reflexivity.
      * rewrite (decide_True (P := S next ≤ d)) by lia.
        replace (d - next) with (S (d - S next)) by lia. simpl.
        destruct (decide (key_of b = (T, C))); unfold count_if; simpl;
          [rewrite bool_decide_eq_false_2 by exact Hne|]; reflexivity.
    + rewrite (decide_False (P := S next ≤ d)) by lia.
      destruct (decide (key_of b = (T, C))); unfold count_if; simpl;
        [rewrite bool_decide_eq_false_2 by lia|]; reflexivity.
Qed.

(** X2.  After a setup phase on a fresh bus there are as many delegates as
    registration calls, and the delegate made by the d-th call is filed
    once under the key of that call and under no other key. *)
Theorem every_delegate_filed_once (bs : list bind_call) (objs : list Object)
    (d : delegate_ptr) (T : type_index) (C : string) :
  length (delegate_store (exec (setup bs) (init objs))) = length bs
  ∧ count_if (λ d', bool_decide (d' = d))
             (entry T C (delegates_ (exec (setup bs) (init objs))))
    = match bs !! d with
      | Some b => if decide (key_of b = (T, C)) then 1 else 0
      | None => 0
      end.
Proof.
  destruct (exec_setup bs objs) as (_ & Hs & He & _). rewrite Hs, He.
  split; [apply length_map|].
  unfold registered. rewrite count_registered_from.
  rewrite (decide_True (P := 0 ≤ d)) by lia. rewrite Nat.sub_0_r. reflexivity.
Qed.

(** X3.  A setup phase, from any state of the bus, returns and only
    creates and files delegates: the message objects, the bound members of
    the modules and the traces are as before, and the delegates that
    existed keep their addresses. *)
Theorem setup_delivers_nothing (bs : list bind_call) (w : World) :
  ∃ w', setup bs w = Returned (tt, w')
    ∧ objects w' = objects w
    ∧ single_slots w' = single_slots w ∧ multi_slots w' = multi_slots w
    ∧ heard w' = heard w ∧ calls w' = calls w
    ∧ delegate_store w' = delegate_store w ++ map delegate_of bs.
Proof.
  destruct (setup_returns bs w) as (w' & Hr & Hs & _ & Ho & Hsi & Hmu & Hh & Hc).
  exists w'. tauto.
Qed.

(** ** Configuration and ModuleFactory *)

(** X4.  For every configuration and key: either the key is there, and
    [getText] and [getText] with a default both return its value; or it is
    not, and [getText] throws [MissingKeyError] with the name of the
    configuration and the key, while [getText] with a default returns the
    default.  [std::out_of_range] never leaves either of them. *)
Theorem getText_agrees_with_has (c : Configuration.Configuration) (key def : string) :
  (Configuration.has key c = true
   ∧ ∃ v, Configuration.getText key c = Value v
          ∧ Configuration.getText_default key def c = Value v)
  ∨ (Configuration.has key c = false
     ∧ Configuration.getText key c
       = Thrown (Configuration.MissingKeyError (Configuration.getName c) key)
     ∧ Configuration.getText_default key def c = Value def).
Proof.
  unfold Configuration.has, Configuration.getText, Configuration.getText_default,
    Configuration.has, Configuration.at_.
  destruct (Configuration.config_ c !! key) as [v|]; simpl.
  - left. split; [reflexivity|]. exists v. split; reflexivity.
  - right. repeat split; reflexivity.
Qed.

(** X5.  After any sequence of [setAllPix] and [setConfiguration] calls on
    a new factory, [getAllPix] returns the pointer of the last [setAllPix]
    (the null pointer if there was none) and [getConfiguration] the
    configuration of the last [setConfiguration]; if there was none it is
    the default configuration, in which every [getText] throws
    [MissingKeyError] with the empty name. *)
Theorem factory_keeps_last_set (ss : list ModuleFactory.setter) (key : string) :
  ModuleFactory.getAllPix (fold_left ModuleFactory.do_set ss ModuleFactory.make)
  = default None (last (ModuleFactory.pointers_set ss))
  ∧ ModuleFactory.getConfiguration (fold_left ModuleFactory.do_set ss ModuleFactory.make)
    = default Configuration.make_default (last (ModuleFactory.configurations_set ss))
  ∧ Configuration.getText key (ModuleFactory.getConfiguration ModuleFactory.make)
    = Thrown (Configuration.MissingKeyError "" key).
Proof.
  split; [|split]; [| |reflexivity].
  - induction ss as [|s ss IH] using rev_ind; [reflexivity|].
    rewrite fold_left_app. simpl. unfold ModuleFactory.pointers_set in *.
    rewrite omap_app. destruct s as [p|c]; simpl.
    + rewrite last_snoc. reflexivity.
    + rewrite app_nil_r. exact IH.
  - induction ss as [|s ss IH] using rev_ind; [reflexivity|].
    rewrite fold_left_app. simpl. unfold ModuleFactory.configurations_set in *.
    rewrite omap_app. destruct s as [p|c]; simpl.
    + rewrite app_nil_r. exact IH.
    + rewrite last_snoc. reflexivity.
Qed.

(** ** The setup matrix of LCIOWriterModule *)

Example stoi_examples :
  LCIOWriter.std_stoi "12" = Value 12%Z ∧ LCIOWriter.std_stoi " -7x" = Value (-7)%Z
  ∧ LCIOWriter.std_stoi "12abc" = Value 12%Z
  ∧ LCIOWriter.std_stoi "abc" = Thrown LCIOWriter.invalid_argument
  ∧ LCIOWriter.std_stoi "" = Thrown LCIOWriter.invalid_argument
  ∧ LCIOWriter.std_stoi "-" = Thrown LCIOWriter.invalid_argument
  ∧ LCIOWriter.std_stoi "2147483647" = Value 2147483647%Z
  ∧ LCIOWriter.std_stoi "2147483648" = Thrown LCIOWriter.out_of_range.
Proof. vm_compute. repeat split. Qed.

Example construct_example :
  ∃ m, LCIOWriter.construct LCIOWriter.std_stoi map_to_list
         [["mimosa1"; "zsdata_m26"; "1"]; ["dut"; "zsdata_dut"; "20"]; ["mimosa2"; "zsdata_m26"; "2"]]
         ["dut"; "mimosa1"; "mimosa2"] = Value m
       ∧ LCIOWriter.det_name_to_id_ m !! "dut" = Some 20
       ∧ LCIOWriter.col_to_dets_map_ m !! "zsdata_m26" = Some ["mimosa1"; "mimosa2"]
       ∧ length (LCIOWriter.col_name_vec_ m) = 2.
Proof. vm_compute. eexists. repeat split. Qed.

Import LCIOWriter.

Lemma loaded_snoc (rows : list (string * string * nat)) (r : string * string * nat) :
  loaded (rows ++ [r]) = add_row (loaded rows) r.
Proof. unfold loaded. rewrite fold_left_app. reflexivity. Qed.

Lemma loaded_untouched (rows : list (string * string * nat)) :
  det_id_to_col_index_ (loaded rows) = ∅ ∧ col_name_vec_ (loaded rows) = [].
Proof.
  induction rows as [|r rows IH] using rev_ind; [split; reflexivity|].
  rewrite loaded_snoc. exact IH.
Qed.

Lemma loaded_names (rows : list (string * string * nat)) (det_name : string) :
  det_name_to_id_ (loaded rows) !! det_name = id_of det_name rows.
Proof.
  unfold id_of. induction rows as [|r rows IH] using rev_ind; [reflexivity|].
  rewrite loaded_snoc, List.filter_app. simpl.
  case_bool_decide as Hn.
  - rewrite last_snoc. rewrite Hn. apply lookup_insert_eq.
  - rewrite app_nil_r, lookup_insert_ne by exact Hn. exact IH.
Qed.

Lemma loaded_cols (rows : list (string * string * nat)) (col : string) :
  col_to_dets_map_ (loaded rows) !! col
  = match dets_of col rows with
    | [] => None
    | dets => Some dets
    end.
Proof.
  unfold dets_of. induction rows as [|r rows IH] using rev_ind; [reflexivity|].
  rewrite loaded_snoc, List.filter_app, map_app. simpl.
  case_bool_decide as Hc.
  - rewrite Hc in *. rewrite lookup_insert_eq, IH. simpl.
    destruct (map _ (List.filter _ rows)); reflexivity.
  - rewrite lookup_insert_ne by exact Hc. simpl. rewrite app_nil_r. exact IH.
Qed.

Lemma elem_of_dets_of (det_name col : string) (rows : list (string * string * nat)) :
  det_name ∈ dets_of col rows ↔ ∃ id, (det_name, col, id) ∈ rows.
Proof.
  unfold dets_of. rewrite list_elem_of_fmap. split.
  - intros ([[d c] id] & -> & Hin). apply list_elem_of_In, List.filter_In in Hin as [Hin Hc].
    apply bool_decide_eq_true_1 in Hc. simpl in *. subst c.
    exists id. apply list_elem_of_In. exact Hin.
  - intros (id & Hin). exists (det_name, col, id). split; [reflexivity|].
    apply list_elem_of_In, List.filter_In. split; [apply list_elem_of_In; exact Hin|].
    apply bool_decide_eq_true_2. reflexivity.
Qed.

Lemma id_of_Some (det_name : string) (id : nat) (rows : list (string * string * nat)) :
  id_of det_name rows = Some id → ∃ col, (det_name, col, id) ∈ rows.
Proof.
  unfold id_of. intros H. apply fmap_Some in H as ([[d c] i] & Hlast & ->).
  apply last_Some in Hlast as (l' & Hl').
  assert (Hin : (d, c, i) ∈ List.filter (λ r, bool_decide (r.1.1 = det_name)) rows).
  { rewrite Hl'. apply elem_of_app. right. apply list_elem_of_singleton. reflexivity. }
  apply list_elem_of_In, List.filter_In in Hin as [Hin Hn].
  apply bool_decide_eq_true_1 in Hn. simpl in *. subst d.
  exists c. apply list_elem_of_In. exact Hin.
Qed.

Lemma id_of_is_Some (det_name col : string) (id : nat) (rows : list (string * string * nat)) :
  (det_name, col, id) ∈ rows → is_Some (id_of det_name rows).
Proof.
  intros Hin. unfold id_of.
  assert (Hf : (det_name, col, id) ∈ List.filter (λ r, bool_decide (r.1.1 = det_name)) rows).
  { apply list_elem_of_In, List.filter_In. split; [apply list_elem_of_In; exact Hin|].
    apply bool_decide_eq_true_2. reflexivity. }
  destruct (List.filter _ rows) as [|x l] eqn:Hl using rev_ind; [inversion Hf|].
  rewrite last_snoc. eauto.
Qed.

(** Rows with distinct ids: a row is known by its id. *)
Lemma NoDup_snd_inj (rows : list (string * string * nat)) (r1 r2 : string * string * nat) :
  NoDup (map snd rows) → r1 ∈ rows → r2 ∈ rows → r1.2 = r2.2 → r1 = r2.
Proof.
  induction rows as [|r rows IH]; simpl; [intros _ H; inversion H|].
  intros [Hnotin Hnd]%NoDup_cons [->|H1]%elem_of_cons [->|H2]%elem_of_cons Heq.
  - reflexivity.
  - exfalso. apply Hnotin. rewrite Heq. apply list_elem_of_fmap. eauto.
  - exfalso. apply Hnotin. rewrite <- Heq. apply list_elem_of_fmap. eauto.
  - apply IH; assumption.
Qed.

Lemma count_NoDup {A} `{EqDecision A} (x : A) (l : list A) :
  NoDup l → count_if (λ y, bool_decide (y = x)) l = if bool_decide (x ∈ l) then 1 else 0.
Proof.
  unfold count_if. induction 1 as [|y l Hnotin Hnd IH].
  - cbn [List.filter length].
    rewrite (bool_decide_eq_false_2 (x ∈ [])) by apply not_elem_of_nil. reflexivity.
  - cbn [List.filter]. destruct (decide (y = x)) as [Hy|Hy].
    + rewrite (bool_decide_eq_true_2 _ Hy). cbn [length]. rewrite IH.
      rewrite <- Hy. rewrite (bool_decide_eq_false_2 _ Hnotin).
      rewrite bool_decide_eq_true_2 by apply list_elem_of_here. reflexivity.
    + rewrite (bool_decide_eq_false_2 _ Hy), IH.
      apply f_equal with (f := λ b : bool, if b then 1 else 0).
      apply bool_decide_ext. rewrite elem_of_cons. split; [tauto|].
      intros [->|H]; [contradiction | exact H].
Qed.

Section LCIOWriter_facts.

Variable stoi : string → result stoi_exn Z.
Variable traverse : gmap string (list string) → list (string * list string).
Hypothesis traverse_once : ∀ cols, Permutation (traverse cols) (map_to_list cols).

Lemma read_entry_Value (ids : list nat) (m : members) (e : list string)
    (st' : list nat * members) :
  read_entry stoi (ids, m) e = Value st' →
  ∃ r, row_of stoi e = Some r ∧ (r.2 ∉ ids) ∧ st' = (ids ++ [r.2], add_row m r).
Proof.
  unfold read_entry, row_of, checked_id.
  destruct e as [|d [|c [|s [|]]]]; try discriminate.
  destruct (stoi s) as [u|[]]; try discriminate.
  destruct ((0 <=? u)%Z && (u <=? 127)%Z); try discriminate.
  simpl. case_bool_decide as Hin; [discriminate|].
  intros [= <-]. exists (d, c, Z.to_nat u). auto.
Qed.

Lemma read_entry_ok (ids : list nat) (m : members) (e : list string)
    (r : string * string * nat) :
  row_of stoi e = Some r → r.2 ∉ ids →
  read_entry stoi (ids, m) e = Value (ids ++ [r.2], add_row m r).
Proof.
  unfold read_entry, row_of, checked_id.
  destruct e as [|d [|c [|s [|]]]]; try discriminate.
  destruct (stoi s) as [u|[]]; try discriminate.
  destruct ((0 <=? u)%Z && (u <=? 127)%Z); try discriminate.
  intros [= <-] Hnotin. simpl in *.
  rewrite bool_decide_eq_false_2 by exact Hnotin. reflexivity.
Qed.

Lemma read_setup_Value (setup : list (list string)) (ids : list nat) (m : members)
    (st' : list nat * members) :
  read_setup stoi (ids, m) setup = Value st' →
  ∃ rows, rows_of stoi setup = Some rows
    ∧ NoDup (map snd rows) ∧ (∀ x, x ∈ map snd rows → x ∉ ids)
    ∧ st' = (ids ++ map snd rows, fold_left add_row rows m).
Proof.
  revert ids m. induction setup as [|e setup IH]; intros ids m; simpl.
  - intros [= <-]. exists []. simpl. rewrite app_nil_r.
    split; [reflexivity|]. split; [constructor|]. split; [|reflexivity].
    intros x Hx. inversion Hx.
  - destruct (read_entry stoi (ids, m) e) as [st1|] eqn:He; [|discriminate].
    apply read_entry_Value in He as (r & Hr & Hnotin & ->).
    intros H. apply IH in H as (rows & Hrows & Hnd & Hfresh & ->).
    exists (r :: rows). rewrite Hr, Hrows. simpl.
    split; [reflexivity|]. split; [|split].
    + constructor; [|exact Hnd]. intros Hin. apply (Hfresh _ Hin).
      apply elem_of_app. right. apply list_elem_of_singleton. reflexivity.
    + intros x [->|Hx]%elem_of_cons; [exact Hnotin|].
      intros Hin. apply (Hfresh _ Hx). apply elem_of_app. left. exact Hin.
    + rewrite <- app_assoc. reflexivity.
Qed.

Lemma read_setup_ok (setup : list (list string)) (rows : list (string * string * nat))
    (ids : list nat) (m : members) :
  rows_of stoi setup = Some rows →
  NoDup (map snd rows) → (∀ x, x ∈ map snd rows → x ∉ ids) →
  read_setup stoi (ids, m) setup = Value (ids ++ map snd rows, fold_left add_row rows m).
Proof.
  revert rows ids m. induction setup as [|e setup IH]; intros rows ids m; simpl.
  - intros [= <-] _ _. simpl. rewrite app_nil_r. reflexivity.
  - destruct (row_of stoi e) as [r|] eqn:Hr; [|discriminate].
    destruct (rows_of stoi setup) as [rs|] eqn:Hrs; [|discriminate].
    intros [= <-] Hnd Hfresh. simpl in *.
    apply NoDup_cons in Hnd as [Hr_notin Hnd].
    rewrite (read_entry_ok _ _ _ _ Hr) by (apply Hfresh; left).
    rewrite (IH rs _ _ eq_refl Hnd).
    + rewrite <- app_assoc. reflexivity.
    + intros x Hx [Hin|Hin]%elem_of_app.
      * apply (Hfresh x); [right; exact Hx | exact Hin].
      * apply list_elem_of_singleton in Hin as ->. exact (Hr_notin Hx).
Qed.

Lemma index_detectors (idx : nat) (dets : list string) (names : gmap string nat)
    (index : gmap nat nat) :
  Forall (λ det, is_Some (names !! det)) dets →
  ∃ index', fold_left (index_detector idx) dets (names, index) = (names, index')
    ∧ ∀ id, index' !! id = if has_id names id dets then Some idx else index !! id.
Proof.
  revert index. induction dets as [|det dets IH]; intros index Hall; simpl.
  - exists index. split; [reflexivity|]. intros id. reflexivity.
  - apply Forall_cons in Hall as [[det_id Hdet] Hall].
    assert (index_detector idx (names, index) det = (names, <[det_id := idx]> index)) as ->
      by (unfold index_detector; simpl; rewrite Hdet; reflexivity).
    destruct (IH (<[det_id := idx]> index) Hall) as (index' & Hfold & Hix).
    exists index'. split; [exact Hfold|].
    intros id. rewrite Hix. unfold has_id. simpl. rewrite Hdet.
    destruct (existsb _ dets); [by rewrite orb_true_r|]. rewrite orb_false_r.
    case_bool_decide as Hid.
    + injection Hid as ->. apply lookup_insert_eq.
    + apply lookup_insert_ne. congruence.
Qed.

Lemma register_collection_named (m : members) (cd : string * list string) :
  Forall (λ det, is_Some (det_name_to_id_ m !! det)) cd.2 →
  det_name_to_id_ (register_collection m cd) = det_name_to_id_ m
  ∧ col_to_dets_map_ (register_collection m cd) = col_to_dets_map_ m
  ∧ col_name_vec_ (register_collection m cd) = col_name_vec_ m ++ [cd.1]
  ∧ ∀ id, det_id_to_col_index_ (register_collection m cd) !! id
          = if has_id (det_name_to_id_ m) id cd.2
            then Some (length (col_name_vec_ m))
            else det_id_to_col_index_ m !! id.
Proof.
  intros Hall. unfold register_collection.
  destruct (index_detectors (length (col_name_vec_ m ++ [cd.1]) - 1) cd.2
              (det_name_to_id_ m) (det_id_to_col_index_ m) Hall) as (index' & -> & Hix).
  simpl. split; [reflexivity|]. split; [reflexivity|]. split; [reflexivity|].
  intros id. rewrite Hix, length_app. simpl.
  replace (length (col_name_vec_ m) + 1 - 1) with (length (col_name_vec_ m)) by lia.
  reflexivity.
Qed.

(** The second loop over a list of collections whose detectors all have an
    id: names and collections stay, the vector grows by the collection
    names, every id of a detector met has an index, and every index points
    at a collection that holds a detector with that id. *)
Lemma register_all_named (L : list (string * list string)) (m : members) :
  all_named (det_name_to_id_ m) L →
  det_name_to_id_ (fold_left register_collection L m) = det_name_to_id_ m
  ∧ col_to_dets_map_ (fold_left register_collection L m) = col_to_dets_map_ m
  ∧ col_name_vec_ (fold_left register_collection L m) = col_name_vec_ m ++ map fst L
  ∧ (∀ cd det id, cd ∈ L → det ∈ cd.2 → det_name_to_id_ m !! det = Some id →
       is_Some (det_id_to_col_index_ (fold_left register_collection L m) !! id))
  ∧ (∀ id i, det_id_to_col_index_ (fold_left register_collection L m) !! id = Some i →
       det_id_to_col_index_ m !! id = Some i
       ∨ ∃ j cd det, i = length (col_name_vec_ m) + j ∧ L !! j = Some cd
                     ∧ det ∈ cd.2 ∧ det_name_to_id_ m !! det = Some id).
Proof.
  induction L as [|cd L IH] using rev_ind; intros Hall.
  - simpl. rewrite app_nil_r. repeat (split; [reflexivity|]).
    split; [intros cd det id Hin; inversion Hin | intros id i H; left; exact H].
  - unfold all_named in Hall. apply Forall_app in Hall as [HallL Hcd].
    apply Forall_cons in Hcd as [Hcd _].
    destruct (IH HallL) as (Hn & Hc & Hv & Hcov & Hinv). clear IH.
    rewrite fold_left_app. cbn [fold_left].
    set (m' := fold_left register_collection L m) in *.
    rewrite <- Hn in Hcd.
    destruct (register_collection_named m' cd Hcd) as (Hn' & Hc' & Hv' & Hix).
    split; [congruence|]. split; [congruence|].
    split; [rewrite Hv', Hv, map_app, app_assoc; reflexivity|].
    split.
    + intros cd0 det id Hin Hdet Hid. rewrite Hix.
      destruct (has_id (det_name_to_id_ m') id cd.2) eqn:Hhas; [eauto|].
      apply elem_of_app in Hin as [Hin|Hin]; [eapply Hcov; eassumption|].
      apply list_elem_of_singleton in Hin as ->.
      exfalso. unfold has_id in Hhas.
      assert (existsb (λ det, bool_decide (det_name_to_id_ m' !! det = Some id)) cd.2 = true)
        as Htrue; [|congruence].
      apply existsb_exists. exists det. split; [apply list_elem_of_In; exact Hdet|].
      apply bool_decide_eq_true_2. rewrite Hn. exact Hid.
    + intros id i. rewrite Hix.
      destruct (has_id (det_name_to_id_ m') id cd.2) eqn:Hhas.
      * intros [= <-]. right. unfold has_id in Hhas.
        apply existsb_exists in Hhas as (det & Hdet & Hid).
        apply bool_decide_eq_true_1 in Hid. rewrite Hn in Hid.
        exists (length L), cd, det. rewrite Hv, length_app, length_map.
        split; [reflexivity|]. split; [|split; [apply list_elem_of_In; exact Hdet | exact Hid]].
        rewrite lookup_app_r by lia. rewrite Nat.sub_diag. reflexivity.
      * intros H. destruct (Hinv id i H) as [Hinit|(j & cd0 & det & -> & Hj & Hdet & Hid)];
          [left; exact Hinit|].
        right. exists j, cd0, det. split; [reflexivity|].
        split; [apply lookup_app_l_Some; exact Hj | split; assumption].
Qed.

Lemma loaded_all_named (rows : list (string * string * nat)) :
  all_named (det_name_to_id_ (loaded rows)) (traverse (col_to_dets_map_ (loaded rows))).
Proof.
  apply Forall_forall. intros [col dets] Hin. apply Forall_forall. intros det Hdet.
  rewrite traverse_once in Hin. apply elem_of_map_to_list in Hin.
  rewrite loaded_cols in Hin. simpl in *.
  assert (Hd : det ∈ dets_of col rows).
  { destruct (dets_of col rows); [discriminate|]. injection Hin as <-. exact Hdet. }
  apply elem_of_dets_of in Hd as (id & Hrow).
  rewrite loaded_names. eapply id_of_is_Some. exact Hrow.
Qed.

(** The members an accepted setup leaves: those loaded from its rows, with
    the collections registered. *)
Lemma construct_Value (setup : list (list string)) (detectors : list string) (m : members) :
  construct stoi traverse setup detectors = Value m →
  ∃ rows, rows_of stoi setup = Some rows
    ∧ NoDup (map snd rows)
    ∧ length setup = length detectors
    ∧ Forall (λ det, is_Some (id_of det rows)) detectors
    ∧ m = register_collections traverse (loaded rows).
Proof.
  unfold construct.
  destruct (read_setup stoi ([], unfilled) setup) as [[ids m1]|] eqn:Hread; [|discriminate].
  apply read_setup_Value in Hread as (rows & Hrows & Hnd & _ & [= -> ->]).
  fold (loaded rows). unfold cross_check.
  destruct (length setup =? length detectors) eqn:Hlen; simpl; [|discriminate].
  destruct (List.find _ detectors) as [d|] eqn:Hfind; [discriminate|].
  intros [= <-]. exists rows. split; [exact Hrows|]. split; [exact Hnd|].
  split; [apply Nat.eqb_eq; exact Hlen|]. split; [|reflexivity].
  apply Forall_forall. intros det Hdet.
  pose proof (List.find_none _ _ Hfind det) as Hnone.
  rewrite <- list_elem_of_In in Hnone. specialize (Hnone Hdet).
  apply bool_decide_eq_false_1 in Hnone.
  unfold register_collections in Hnone.
  destruct (register_all_named _ _ (loaded_all_named rows)) as (Hn & _).
  rewrite Hn, loaded_names in Hnone.
  destruct (id_of det rows); [eauto | contradiction].
Qed.

Lemma id_of_elem (det : string) (rows : list (string * string * nat)) :
  is_Some (id_of det rows) ↔ det ∈ map (λ r, r.1.1) rows.
Proof.
  split.
  - intros [id H]. apply id_of_Some in H as (col & Hin).
    apply list_elem_of_fmap. exists (det, col, id). auto.
  - intros ([[d c] id] & -> & Hin)%list_elem_of_fmap. eapply id_of_is_Some. exact Hin.
Qed.

(** X6.  The constructor returns exactly for the setups that are acceptable:
    every entry has three elements and a sensor id that [std::stoi] reads as
    a number from 0 to 127, no sensor id occurs twice, there are as many
    entries as detectors in the geometry, and every detector of the geometry
    is named by an entry.  In every other case it throws. *)
Theorem construct_accepts (setup : list (list string)) (detectors : list string) :
  returned (construct stoi traverse setup detectors) = acceptable stoi setup detectors.
Proof.
  unfold acceptable.
  destruct (rows_of stoi setup) as [rows|] eqn:Hrows.
  - destruct (decide (NoDup (map snd rows))) as [Hnd|Hnd].
    + rewrite bool_decide_eq_true_2 by exact Hnd. simpl.
      unfold construct.
      rewrite (read_setup_ok setup rows [] unfilled Hrows Hnd)
        by (intros x _ Hin; inversion Hin).
      fold (loaded rows). unfold cross_check.
      destruct (length setup =? length detectors); simpl; [|reflexivity].
      unfold register_collections.
      destruct (register_all_named _ _ (loaded_all_named rows)) as (Hn & _). rewrite Hn.
      induction detectors as [|d detectors IH]; simpl; [reflexivity|].
      rewrite loaded_names.
      destruct (decide (d ∈ map (λ r, r.1.1) rows)) as [Hin|Hout].
      * rewrite (bool_decide_eq_true_2 _ Hin). simpl.
        apply id_of_elem in Hin as [id Hid]. rewrite Hid. simpl. exact IH.
      * rewrite (bool_decide_eq_false_2 _ Hout). simpl.
        destruct (id_of d rows) as [id|] eqn:Hid.
        -- exfalso. apply Hout, id_of_elem. eauto.
        -- reflexivity.
    + rewrite bool_decide_eq_false_2 by exact Hnd. simpl.
      destruct (construct stoi traverse setup detectors) as [m|] eqn:Hc; [|reflexivity].
      apply construct_Value in Hc as (rows' & Hrows' & Hnd' & _). congruence.
  - destruct (construct stoi traverse setup detectors) as [m|] eqn:Hc; [|reflexivity].
    apply construct_Value in Hc as (rows' & Hrows' & _). congruence.
Qed.

Lemma rows_of_range (setup : list (list string)) (rows : list (string * string * nat)) :
  rows_of stoi setup = Some rows → Forall (λ r, r.2 ≤ 127) rows.
Proof.
  revert rows. induction setup as [|e setup IH]; intros rows; simpl.
  - intros [= <-]. constructor.
  - destruct (row_of stoi e) as [r|] eqn:Hr; [|discriminate].
    destruct (rows_of stoi setup) as [rs|]; [|discriminate].
    intros [= <-]. constructor; [|apply IH; reflexivity].
    unfold row_of in Hr. destruct e as [|d [|c [|s0 [|]]]]; try discriminate.
    destruct (stoi s0) as [u|]; [|discriminate].
    destruct ((0 <=? u)%Z && (u <=? 127)%Z) eqn:Hu; [|discriminate].
    injection Hr as <-. simpl. apply andb_true_iff in Hu as [H0 H1].
    apply Z.leb_le in H0, H1. lia.
Qed.

Lemma constructed_members (rows : list (string * string * nat)) :
  det_name_to_id_ (register_collections traverse (loaded rows)) = det_name_to_id_ (loaded rows)
  ∧ col_to_dets_map_ (register_collections traverse (loaded rows))
    = col_to_dets_map_ (loaded rows)
  ∧ col_name_vec_ (register_collections traverse (loaded rows))
    = map fst (traverse (col_to_dets_map_ (loaded rows))).
Proof.
  unfold register_collections.
  destruct (register_all_named _ _ (loaded_all_named rows)) as (Hn & Hc & Hv & _).
  destruct (loaded_untouched rows) as [_ Hvec]. rewrite Hvec in Hv.
  split; [exact Hn|]. split; [exact Hc | exact Hv].
Qed.

Lemma constructed_ids_injective (setup : list (list string))
    (detectors : list string) (m : members) (name1 name2 : string) (id : nat) :
  construct stoi traverse setup detectors = Value m →
  det_name_to_id_ m !! name1 = Some id →
  det_name_to_id_ m !! name2 = Some id →
  name1 = name2.
Proof.
  intros Hc H1 H2.
  apply construct_Value in Hc as (rows & _ & Hnd & _ & _ & ->).
  destruct (constructed_members rows) as (Hn & _). rewrite Hn in *.
  rewrite loaded_names in H1, H2.
  apply id_of_Some in H1 as (c1 & Hin1). apply id_of_Some in H2 as (c2 & Hin2).
  pose proof (NoDup_snd_inj rows _ _ Hnd Hin1 Hin2 eq_refl) as Heq. congruence.
Qed.

Lemma constructed_detectors (setup : list (list string)) (detectors : list string)
    (m : members) :
  construct stoi traverse setup detectors = Value m →
  Forall (λ det, is_Some (det_name_to_id_ m !! det)) detectors.
Proof.
  intros Hc.
  apply construct_Value in Hc as (rows & _ & _ & _ & Hdets & ->).
  destruct (constructed_members rows) as (Hn & _). rewrite Hn.
  eapply Forall_impl; [exact Hdets|]. intros det Hdet. rewrite loaded_names. exact Hdet.
Qed.

(** X7.  After the constructor returned, two detector names with the same
    sensor id are the same name, every sensor id is at most 127, and every
    detector of the geometry has a sensor id. *)
Theorem sensor_ids_identify_detectors (setup : list (list string))
    (detectors : list string) (m : members) (name1 name2 : string) (id : nat) :
  construct stoi traverse setup detectors = Value m →
  det_name_to_id_ m !! name1 = Some id →
  det_name_to_id_ m !! name2 = Some id →
  name1 = name2 ∧ id ≤ 127
  ∧ Forall (λ det, is_Some (det_name_to_id_ m !! det)) detectors.
Proof.
  intros Hc H1 H2.
  split; [exact (constructed_ids_injective _ _ _ _ _ _ Hc H1 H2)|].
  split; [|exact (constructed_detectors _ _ _ Hc)].
  apply construct_Value in Hc as (rows & Hrows & _ & _ & _ & ->).
  destruct (constructed_members rows) as (Hn & _). rewrite Hn in H1.
  rewrite loaded_names in H1. apply id_of_Some in H1 as (c1 & Hin1).
  pose proof (rows_of_range _ _ Hrows) as Hr.
  rewrite Forall_forall in Hr. exact (Hr _ Hin1).
Qed.

Lemma constructed_index (setup : list (list string))
    (detectors : list string) (m : members) (name : string) (id : nat) :
  construct stoi traverse setup detectors = Value m →
  det_name_to_id_ m !! name = Some id →
  ∃ index col,
    det_id_to_col_index_ m !! id = Some index
    ∧ index < length (col_name_vec_ m)
    ∧ col_name_vec_ m !! index = Some col
    ∧ name ∈ default [] (col_to_dets_map_ m !! col).
Proof.
  intros Hc Hname.
  apply construct_Value in Hc as (rows & Hrows & Hnd & _ & _ & ->).
  destruct (constructed_members rows) as (Hn & Hcols & Hvec).
  rewrite Hn, Hcols, Hvec in *.
  unfold register_collections.
  destruct (register_all_named _ _ (loaded_all_named rows)) as (_ & _ & _ & Hcov & Hinv).
  destruct (loaded_untouched rows) as [Hix0 Hv0]. rewrite Hix0, Hv0 in Hinv.
  (* the detector sits in a collection, which the loop visits *)
  pose proof Hname as Hrow. rewrite loaded_names in Hrow.
  apply id_of_Some in Hrow as (c & Hrow).
  assert (Hvisit : (c, dets_of c rows) ∈ traverse (col_to_dets_map_ (loaded rows))).
  { rewrite traverse_once. apply elem_of_map_to_list. rewrite loaded_cols.
    assert (name ∈ dets_of c rows) as Hin by (apply elem_of_dets_of; eauto).
    destruct (dets_of c rows); [inversion Hin | reflexivity]. }
  destruct (Hcov (c, dets_of c rows) name id Hvisit) as [index Hindex];
    [apply elem_of_dets_of; eauto | exact Hname |].
  destruct (Hinv id index Hindex) as [Hinit|(j & [col dets] & det & -> & Hj & Hdet & Hid)].
  { rewrite lookup_empty in Hinit. discriminate. }
  simpl in *. exists j, col. split; [exact Hindex|].
  assert (Hlook : map fst (traverse (col_to_dets_map_ (loaded rows))) !! j = Some col)
    by (rewrite list_lookup_fmap, Hj; reflexivity).
  split; [apply lookup_lt_Some in Hlook; exact Hlook|]. split; [exact Hlook|].
  (* the collection at that index holds a detector with this id: this one *)
  assert (Hcd : (col, dets) ∈ traverse (col_to_dets_map_ (loaded rows)))
    by (apply list_elem_of_lookup; eauto).
  rewrite traverse_once in Hcd. apply elem_of_map_to_list in Hcd. rewrite Hcd. simpl.
  rewrite loaded_names in Hid. apply id_of_Some in Hid as (c' & Hrow').
  pose proof (NoDup_snd_inj rows _ _ Hnd Hrow Hrow' eq_refl) as Heq.
  injection Heq as <- _. exact Hdet.
Qed.

(** X8.  After the constructor returned, the sensor id of every detector
    has a collection index; the index is within [col_name_vec_], and the
    collection named there is one the setup assigned the detector to. *)
Theorem collection_index_is_valid (setup : list (list string))
    (detectors : list string) (m : members) (name : string) (id : nat) :
  construct stoi traverse setup detectors = Value m →
  det_name_to_id_ m !! name = Some id →
  ∃ index col,
    det_id_to_col_index_ m !! id = Some index
    ∧ index < length (col_name_vec_ m)
    ∧ col_name_vec_ m !! index = Some col
    ∧ name ∈ default [] (col_to_dets_map_ m !! col).
Proof. apply constructed_index. Qed.

(** X9.  After the constructor returned, every collection lists the
    detectors of the setup entries that name it, in the order of the
    entries, and [col_name_vec_] holds every collection name of the setup
    once and nothing else. *)
Theorem collections_list_their_detectors (setup : list (list string))
    (detectors : list string) (m : members) :
  construct stoi traverse setup detectors = Value m →
  ∃ rows, rows_of stoi setup = Some rows
    ∧ (∀ col, default [] (col_to_dets_map_ m !! col) = dets_of col rows)
    ∧ (∀ col, count_if (λ c, bool_decide (c = col)) (col_name_vec_ m)
              = if bool_decide (col ∈ map (λ r, r.1.2) rows) then 1 else 0).
Proof.
  intros Hc.
  apply construct_Value in Hc as (rows & Hrows & Hnd & _ & _ & ->).
  destruct (constructed_members rows) as (_ & Hcols & Hvec). rewrite Hcols, Hvec.
  exists rows. split; [exact Hrows|]. split; intros col.
  - rewrite loaded_cols. destruct (dets_of col rows); reflexivity.
  - assert (Hnodup : NoDup (map fst (traverse (col_to_dets_map_ (loaded rows))))).
    { rewrite traverse_once. apply NoDup_fst_map_to_list. }
    assert (Hmem : col ∈ map fst (traverse (col_to_dets_map_ (loaded rows)))
                   ↔ col ∈ map (λ r, r.1.2) rows).
    { rewrite traverse_once. rewrite list_elem_of_fmap. split.
      - intros ([c dets] & -> & Hin). apply elem_of_map_to_list in Hin.
        rewrite loaded_cols in Hin. simpl.
        destruct (dets_of c rows) as [|d l] eqn:Hd; [discriminate|].
        assert (d ∈ dets_of c rows) as Hdin by (rewrite Hd; left).
        apply elem_of_dets_of in Hdin as (id & Hrow).
        apply list_elem_of_fmap. exists (d, c, id). auto.
      - intros ([[d c] id] & -> & Hrow)%list_elem_of_fmap. simpl.
        exists (c, dets_of c rows). split; [reflexivity|].
        apply elem_of_map_to_list. rewrite loaded_cols.
        assert (d ∈ dets_of c rows) as Hdin by (apply elem_of_dets_of; eauto).
        destruct (dets_of c rows); [inversion Hdin | reflexivity]. }
    rewrite (count_NoDup _ _ Hnodup). rewrite (bool_decide_ext _ _ Hmem). reflexivity.
Qed.

Lemma read_setup_app (setup1 setup2 : list (list string)) (st : list nat * members) :
  read_setup stoi st (setup1 ++ setup2)
  = match read_setup stoi st setup1 with
    | Value st1 => read_setup stoi st1 setup2
    | Thrown e => Thrown e
    end.
Proof.
  revert st. induction setup1 as [|e setup1 IH]; intros st; simpl; [reflexivity|].
  destruct (read_entry stoi st e); [apply IH | reflexivity].
Qed.

(** X10.  When the entries before it are accepted and [std::stoi] throws
    [std::out_of_range] on the sensor id of an entry, the constructor ends
    with [std::out_of_range] itself, not with an [InvalidValueError]: only
    [std::invalid_argument] is caught. *)
Theorem overflowing_id_escapes (before rest : list (list string))
    (det_name col_name sensor_id_str : string) (detectors : list string)
    (st : list nat * members) :
  read_setup stoi ([], unfilled) before = Value st →
  stoi sensor_id_str = Thrown out_of_range →
  construct stoi traverse (before ++ [det_name; col_name; sensor_id_str] :: rest) detectors
  = Thrown std_out_of_range.
Proof.
  intros Hbefore Hstoi. unfold construct.
  rewrite read_setup_app, Hbefore. simpl. unfold checked_id. rewrite Hstoi. reflexivity.
Qed.

(** X11.  When the detectors of the geometry have distinct names, the
    setup the constructor accepted names each of them in exactly one entry,
    and the sensor id of a detector is the one of its entry. *)
Theorem accepted_setup_names_each_detector_once (setup : list (list string))
    (detectors : list string) (m : members) :
  construct stoi traverse setup detectors = Value m →
  NoDup detectors →
  ∃ rows, rows_of stoi setup = Some rows
    ∧ Permutation (map (λ r, r.1.1) rows) detectors
    ∧ ∀ det_name, det_name_to_id_ m !! det_name = id_of det_name rows.
Proof.
  intros Hc Hnd.
  apply construct_Value in Hc as (rows & Hrows & _ & Hlen & Hdets & ->).
  exists rows. split; [exact Hrows|]. split.
  - symmetry. apply submseteq_length_Permutation.
    + apply NoDup_submseteq; [exact Hnd|].
      intros det Hdet. rewrite Forall_forall in Hdets.
      apply id_of_elem, Hdets, Hdet.
    + rewrite length_map.
      assert (length rows = length setup) as ->; [|lia].
      clear -Hrows. revert rows Hrows.
      induction setup as [|e setup IH]; intros rows; simpl.
      * intros [= <-]. reflexivity.
      * destruct (row_of stoi e); [|discriminate].
        destruct (rows_of stoi setup); [|discriminate].
        intros [= <-]. simpl. f_equal. apply IH. reflexivity.
  - intros det_name. destruct (constructed_members rows) as (Hn & _).
    rewrite Hn. apply loaded_names.
Qed.

End LCIOWriter_facts.

(** ** The statements about the setup matrix at a concrete input *)

Lemma demo_constructed :
  construct std_stoi map_to_list demo_matrix demo_detectors = Value demo_members.
Proof. vm_compute. reflexivity. Qed.

Lemma construct_accepts_witness :
  (∀ cols : gmap string (list string), Permutation (map_to_list cols) (map_to_list cols))
  ∧ returned (construct std_stoi map_to_list demo_matrix demo_detectors)
    = acceptable std_stoi demo_matrix demo_detectors.
Proof.
  split; [intros cols; reflexivity|].
  exact (construct_accepts std_stoi map_to_list (λ cols, Permutation_refl _)
           demo_matrix demo_detectors).
Defined.

Lemma sensor_ids_identify_detectors_witness :
  (∀ cols : gmap string (list string), Permutation (map_to_list cols) (map_to_list cols))
  ∧ construct std_stoi map_to_list demo_matrix demo_detectors = Value demo_members
  ∧ det_name_to_id_ demo_members !! "dut" = Some 20
  ∧ ("dut" = "dut" ∧ 20 ≤ 127
     ∧ Forall (λ det, is_Some (det_name_to_id_ demo_members !! det)) demo_detectors).
Proof.
  split; [intros cols; reflexivity|]. split; [vm_compute; reflexivity|].
  split; [vm_compute; reflexivity|].
  apply (sensor_ids_identify_detectors std_stoi map_to_list (λ cols, Permutation_refl _)
           demo_matrix demo_detectors demo_members "dut" "dut" 20);
    vm_compute; reflexivity.
Defined.

Lemma collection_index_is_valid_witness :
  (∀ cols : gmap string (list string), Permutation (map_to_list cols) (map_to_list cols))
  ∧ construct std_stoi map_to_list demo_matrix demo_detectors = Value demo_members
  ∧ det_name_to_id_ demo_members !! "mimosa2" = Some 2
  ∧ ∃ index col,
      det_id_to_col_index_ demo_members !! 2 = Some index
      ∧ index < length (col_name_vec_ demo_members)
      ∧ col_name_vec_ demo_members !! index = Some col
      ∧ "mimosa2" ∈ default [] (col_to_dets_map_ demo_members !! col).
Proof.
  split; [intros cols; reflexivity|]. split; [vm_compute; reflexivity|].
  split; [vm_compute; reflexivity|].
  apply (collection_index_is_valid std_stoi map_to_list (λ cols, Permutation_refl _)
           demo_matrix demo_detectors demo_members "mimosa2" 2);
    vm_compute; reflexivity.
Defined.

Lemma collections_list_their_detectors_witness :
  (∀ cols : gmap string (list string), Permutation (map_to_list cols) (map_to_list cols))
  ∧ construct std_stoi map_to_list demo_matrix demo_detectors = Value demo_members
  ∧ default [] (col_to_dets_map_ demo_members !! "zsdata_m26") = ["mimosa1"; "mimosa2"]
  ∧ count_if (λ c, bool_decide (c = "zsdata_m26")) (col_name_vec_ demo_members) = 1.
Proof.
  split; [intros cols; reflexivity|]. split; [vm_compute; reflexivity|].
  destruct (collections_list_their_detectors std_stoi map_to_list
              (λ cols, Permutation_refl _) demo_matrix demo_detectors demo_members
              demo_constructed) as (rows & Hrows & Hcols & Hvec).
  vm_compute in Hrows. injection Hrows as <-.
  split; [etrans; [apply Hcols | reflexivity] | etrans; [apply Hvec | reflexivity]].
Defined.

Lemma overflowing_id_escapes_witness :
  (∃ st, read_setup std_stoi ([], unfilled) [["mimosa1"; "zsdata_m26"; "1"]] = Value st)
  ∧ std_stoi "99999999999" = Thrown out_of_range
  ∧ construct std_stoi map_to_list
      ([["mimosa1"; "zsdata_m26"; "1"]] ++ ["dut"; "zsdata_dut"; "99999999999"] :: [])
      ["mimosa1"; "dut"]
    = Thrown std_out_of_range.
Proof.
  destruct (read_setup std_stoi ([], unfilled) [["mimosa1"; "zsdata_m26"; "1"]])
    as [st|e] eqn:Hbefore; [|vm_compute in Hbefore; discriminate].
  split; [eauto|]. split; [reflexivity|].
  apply (overflowing_id_escapes std_stoi map_to_list _ _ _ _ _ _ st Hbefore).
  reflexivity.
Defined.

Lemma accepted_setup_names_each_detector_once_witness :
  (∀ cols : gmap string (list string), Permutation (map_to_list cols) (map_to_list cols))
  ∧ construct std_stoi map_to_list demo_matrix demo_detectors = Value demo_members
  ∧ NoDup demo_detectors
  ∧ Permutation ["mimosa1"; "dut"; "mimosa2"] demo_detectors.
Proof.
  assert (Hnd : NoDup demo_detectors)
    by (apply (bool_decide_unpack (NoDup demo_detectors)); vm_compute; exact I).
  split; [intros cols; reflexivity|]. split; [vm_compute; reflexivity|].
  split; [exact Hnd|].
  destruct (accepted_setup_names_each_detector_once std_stoi map_to_list
              (λ cols, Permutation_refl _) demo_matrix demo_detectors demo_members
              demo_constructed Hnd) as (rows & Hrows & Hperm & _).
  vm_compute in Hrows. injection Hrows as <-. exact Hperm.
Defined.

(** ** run: the two loops over the pixel hits and over the detectors *)

Lemma subscript_fst `{Countable K} {V} (k : K) (d : V) (m : gmap K V) :
  (subscript k d m).1 = default d (m !! k).
Proof. unfold subscript. destruct (m !! k); reflexivity. Qed.

Lemma subscript_lookup `{Countable K} {V} (k k' : K) (d : V) (m : gmap K V) :
  default d ((subscript k d m).2 !! k') = default d (m !! k').
Proof.
  unfold subscript. destruct (m !! k) eqn:Hk; [reflexivity|]. cbn [snd].
  destruct (decide (k = k')) as [<-|Hne].
  - rewrite lookup_insert_eq, Hk. reflexivity.
  - rewrite lookup_insert_ne by exact Hne. reflexivity.
Qed.

Lemma subscript_present `{Countable K} {V} (k : K) (d v : V) (m : gmap K V) :
  m !! k = Some v → subscript k d m = (v, m).
Proof. unfold subscript. intros ->. reflexivity. Qed.

Lemma subscript_is_Some `{Countable K} {V} (k : K) (d : V) (m : gmap K V) :
  is_Some (m !! k) → (subscript k d m).2 = m.
Proof. intros [v Hv]. rewrite (subscript_present _ _ _ _ Hv). reflexivity. Qed.

Lemma for_each_result_app {E S B} (body : S → B → result E S) (l1 l2 : list B) (s : S) :
  for_each_result body (l1 ++ l2) s
  = match for_each_result body l1 s with
    | Value s' => for_each_result body l2 s'
    | Thrown e => Thrown e
    end.
Proof.
  revert s. induction l1 as [|b l1 IH]; intros s; cbn [for_each_result app]; [reflexivity|].
  destruct (body s b); [apply IH | reflexivity].
Qed.

Lemma appended_app {A} (o : option (list A)) (l1 l2 : list A) :
  appended (appended o l1) l2 = appended o (l1 ++ l2).
Proof.
  destruct l1 as [|a l1]; [reflexivity|]. destruct l2 as [|b l2]; cbn.
  - rewrite app_nil_r. reflexivity.
  - rewrite <- app_assoc. reflexivity.
Qed.

Lemma last_replicate {A} (n : nat) (a : A) :
  last (replicate n a) = if n =? 0 then None else Some a.
Proof.
  induction n as [|n IH]; [reflexivity|]. cbn [replicate].
  destruct n as [|n]; [reflexivity|]. cbn [replicate] in *. cbn [last]. exact IH.
Qed.







Section LCIOWriter_run_facts.

Context {float index double : Type}.
Variable cast_index : index → float.
Variable cast_signal : double → float.
Variable zero : float.

Lemma charge_vec_length (pixel_type_ : Z) (hitdata : @PixelHit index double) :
  length (this_hit_charge_vec cast_index cast_signal zero pixel_type_ hitdata)
  = values_per_pixel pixel_type_.
Proof.
  unfold this_hit_charge_vec, values_per_pixel.
  destruct (pixel_type_ =? 1)%Z; [reflexivity|].
  destruct (pixel_type_ =? 5)%Z; reflexivity.
Qed.

Lemma empty_charges_lookup (ids : list (string * nat)) (det_id : nat) :
  default [] (@empty_charges float ids !! det_id) = [].
Proof.
  unfold empty_charges.
  assert (Hgen : ∀ c : gmap nat (list float), default [] (c !! det_id) = [] →
            default [] (fold_left (λ c det, <[det.2 := []]> c) ids c !! det_id) = []).
  { induction ids as [|det ids IH]; intros c Hc; cbn [fold_left]; [exact Hc|].
    apply IH. destruct (decide (det.2 = det_id)) as [<-|Hne].
    - rewrite lookup_insert_eq. reflexivity.
    - rewrite lookup_insert_ne by exact Hne. exact Hc. }
  apply Hgen. rewrite lookup_empty. reflexivity.
Qed.

(** The loops over the messages and their hits are one loop over the hits. *)
Lemma fill_hits (pixel_type_ : Z) (pixel_messages_ : list PixelHitMessage) (fr : frame) :
  fill cast_index cast_signal zero pixel_type_ pixel_messages_ fr
  = for_each_result (fill_one cast_index cast_signal zero pixel_type_) (hits_of pixel_messages_) fr.
Proof.
  unfold fill. revert fr.
  induction pixel_messages_ as [|hit_msg msgs IH]; intros fr; [reflexivity|].
  cbn [for_each_result hits_of flat_map]. rewrite for_each_result_app.
  assert (Hinner : ∀ data fr,
            for_each_result (fill_hit cast_index cast_signal zero pixel_type_
                               (getDetectorName hit_msg)) data fr
            = for_each_result (fill_one cast_index cast_signal zero pixel_type_)
                (map (λ hitdata, (getDetectorName hit_msg, hitdata)) data) fr).
  { induction data as [|h data IHd]; intros fr0; cbn [for_each_result map];
      [reflexivity|].
    unfold fill_one at 1. cbn [fst snd].
    destruct (fill_hit _ _ _ _ _ fr0 h); [apply IHd | reflexivity]. }
  rewrite Hinner.
  destruct (for_each_result _ (map _ (getData hit_msg)) fr); [apply IH | reflexivity].
Qed.

Lemma note_particles (det_id : nat) (vec : list float) (mcps : list addr) (fr : frame) :
  this (fold_left (note_particle det_id vec) mcps fr) = this fr
  ∧ charges (fold_left (note_particle det_id vec) mcps fr) = charges fr
  ∧ (∀ mcp, mcp_to_pixel_data_vec (fold_left (note_particle det_id vec) mcps fr) !! mcp
            = appended (mcp_to_pixel_data_vec fr !! mcp)
                (replicate (count_if (λ p, bool_decide (p = mcp)) mcps) vec))
  ∧ (∀ mcp, mcp_to_det_id (fold_left (note_particle det_id vec) mcps fr) !! mcp
            = if count_if (λ p, bool_decide (p = mcp)) mcps =? 0
              then mcp_to_det_id fr !! mcp else Some det_id).
Proof.
  revert fr. induction mcps as [|p mcps IH]; intros fr; cbn [fold_left].
  - split; [reflexivity|]. split; [reflexivity|]. split; intros mcp; reflexivity.
  - destruct (IH (note_particle det_id vec fr p)) as (Ht & Hc & Hp & Hd).
    split; [rewrite Ht; reflexivity|]. split; [rewrite Hc; reflexivity|].
    split; intros mcp.
    + rewrite Hp. cbn [note_particle mcp_to_pixel_data_vec].
      unfold count_if. cbn [List.filter].
      destruct (decide (p = mcp)) as [->|Hne].
      * rewrite (bool_decide_eq_true_2 (mcp = mcp)) by reflexivity.
        cbn [length replicate]. rewrite lookup_insert_eq.
        destruct (replicate _ vec) as [|v l]; cbn; [reflexivity|].
        rewrite <- app_assoc. reflexivity.
      * rewrite (bool_decide_eq_false_2 (p = mcp)) by exact Hne.
        rewrite lookup_insert_ne by exact Hne. reflexivity.
    + rewrite Hd. cbn [note_particle mcp_to_det_id].
      unfold count_if. cbn [List.filter].
      destruct (decide (p = mcp)) as [->|Hne].
      * rewrite (bool_decide_eq_true_2 (mcp = mcp)) by reflexivity.
        cbn [length]. rewrite lookup_insert_eq.
        destruct (length _ =? 0); reflexivity.
      * rewrite (bool_decide_eq_false_2 (p = mcp)) by exact Hne.
        rewrite lookup_insert_ne by exact Hne. reflexivity.
Qed.

(** One hit whose particles can be fetched. *)
Lemma fill_hit_Value (pixel_type_ : Z) (det_name : string) (fr : frame)
    (hitdata : PixelHit) (mcps : list addr) :
  getMCParticles hitdata = Value mcps →
  ∃ fr', fill_hit cast_index cast_signal zero pixel_type_ det_name fr hitdata = Value fr'
    ∧ this fr' = with_names (this fr) (subscript det_name 0 (det_name_to_id_ (this fr))).2
    ∧ charges fr'
      = <[id_for (det_name_to_id_ (this fr)) det_name
          := default [] (charges fr !! id_for (det_name_to_id_ (this fr)) det_name)
             ++ this_hit_charge_vec cast_index cast_signal zero pixel_type_ hitdata]> (charges fr)
    ∧ (∀ mcp, mcp_to_pixel_data_vec fr' !! mcp
              = appended (mcp_to_pixel_data_vec fr !! mcp)
                  (replicate (count_if (λ p, bool_decide (p = mcp)) mcps)
                     (this_hit_charge_vec cast_index cast_signal zero pixel_type_ hitdata)))
    ∧ (∀ mcp, mcp_to_det_id fr' !! mcp
              = if count_if (λ p, bool_decide (p = mcp)) mcps =? 0
                then mcp_to_det_id fr !! mcp
                else Some (id_for (det_name_to_id_ (this fr)) det_name)).
Proof.
  intros Hmc. unfold fill_hit. rewrite Hmc. eexists. split; [reflexivity|].
  rewrite subscript_fst.
  match goal with |- context [fold_left ?f mcps ?fr0] =>
    destruct (note_particles (id_for (det_name_to_id_ (this fr)) det_name)
                (this_hit_charge_vec cast_index cast_signal zero pixel_type_ hitdata) mcps fr0)
      as (Ht & Hc & Hp & Hd)
  end.
  unfold id_for in *.
  split; [rewrite Ht; reflexivity|]. split; [rewrite Hc; reflexivity|].
  split; intros mcp; [rewrite Hp | rewrite Hd]; reflexivity.
Qed.

Lemma hits_with_id_ext (names1 names2 : gmap string nat) (det_id : nat)
    (hits : list (string * @PixelHit index double)) :
  (∀ n, id_for names1 n = id_for names2 n) →
  hits_with_id names1 det_id hits = hits_with_id names2 det_id hits.
Proof.
  intros Hext. unfold hits_with_id. f_equal.
  induction hits as [|hit hits IH]; [reflexivity|]. cbn [List.filter].
  rewrite Hext, IH. reflexivity.
Qed.

(** The effect of the loop over the hits, from any frame. *)
Lemma fill_effect (pixel_type_ : Z) (hits : list (string * PixelHit)) (fr : frame) :
  match for_each_result (fill_one cast_index cast_signal zero pixel_type_) hits fr with
  | Value fr' =>
      (col_to_dets_map_ (this fr') = col_to_dets_map_ (this fr)
       ∧ det_id_to_col_index_ (this fr') = det_id_to_col_index_ (this fr)
       ∧ col_name_vec_ (this fr') = col_name_vec_ (this fr))
      ∧ (∀ n, id_for (det_name_to_id_ (this fr')) n = id_for (det_name_to_id_ (this fr)) n)
      ∧ (Forall (λ hit, is_Some (det_name_to_id_ (this fr) !! hit.1)) hits →
         det_name_to_id_ (this fr') = det_name_to_id_ (this fr))
      ∧ (∀ det_id, default [] (charges fr' !! det_id)
                   = default [] (charges fr !! det_id)
                     ++ flat_map (this_hit_charge_vec cast_index cast_signal zero pixel_type_)
                          (hits_with_id (det_name_to_id_ (this fr)) det_id hits))
      ∧ (∀ mcp, mcp_to_pixel_data_vec fr' !! mcp
                = appended (mcp_to_pixel_data_vec fr !! mcp)
                    (map (λ hit, this_hit_charge_vec cast_index cast_signal zero pixel_type_ hit.2)
                       (listings mcp hits)))
      ∧ (∀ mcp, mcp_to_det_id fr' !! mcp
                = match last (listings mcp hits) with
                  | Some hit => Some (id_for (det_name_to_id_ (this fr)) hit.1)
                  | None => mcp_to_det_id fr !! mcp
                  end)
      ∧ Forall (λ hit, returned (getMCParticles hit.2) = true) hits
  | Thrown e => ∃ hit, hit ∈ hits ∧ getMCParticles hit.2 = Thrown e
  end.
Proof.
  revert fr. induction hits as [|[n h] hits IH]; intros fr; cbn [for_each_result].
  - split; [auto|]. split; [reflexivity|]. split; [reflexivity|].
    split; [intros det_id; cbn; rewrite app_nil_r; reflexivity|].
    split; [reflexivity|]. split; [reflexivity | constructor].
  - unfold fill_one at 1. cbn [fst snd].
    destruct (getMCParticles h) as [mcps|e] eqn:Hmc.
    2:{ unfold fill_hit. rewrite Hmc. exists (n, h). split; [left | exact Hmc]. }
    destruct (fill_hit_Value pixel_type_ n fr h mcps Hmc)
      as (fr1 & Hstep & Hthis & Hch & Hpd & Hid).
    rewrite Hstep. specialize (IH fr1).
    destruct (for_each_result _ hits fr1) as [fr'|e].
    2:{ destruct IH as (hit & Hin & He). exists hit. split; [right; exact Hin | exact He]. }
    destruct IH as ((Hc' & Hi' & Hv') & Hn' & Hs' & Hch' & Hpd' & Hid' & Hret').
    assert (Hn1 : ∀ n', id_for (det_name_to_id_ (this fr1)) n'
                        = id_for (det_name_to_id_ (this fr)) n').
    { intros n'. rewrite Hthis. cbn [with_names det_name_to_id_]. unfold id_for.
      apply subscript_lookup. }
    rewrite Hthis in Hc', Hi', Hv'. cbn [with_names col_to_dets_map_ det_id_to_col_index_
                                          col_name_vec_] in Hc', Hi', Hv'.
    split; [auto|]. split; [intros n'; rewrite Hn', Hn1; reflexivity|].
    split; [|split; [|split; [|split]]].
    + intros [Hhere Hrest]%Forall_cons. cbn [fst] in Hhere.
      assert (H1 : det_name_to_id_ (this fr1) = det_name_to_id_ (this fr)).
      { rewrite Hthis. cbn [with_names det_name_to_id_].
        apply subscript_is_Some. exact Hhere. }
      rewrite Hs'; [exact H1|]. rewrite H1. exact Hrest.
    + intros det_id. rewrite Hch'.
      rewrite (hits_with_id_ext _ _ det_id hits Hn1).
      unfold hits_with_id at 2. cbn [List.filter fst].
      rewrite Hch. destruct (decide (id_for (det_name_to_id_ (this fr)) n = det_id))
        as [Heq|Hne].
      * rewrite (bool_decide_eq_true_2 _ Heq). rewrite Heq, lookup_insert_eq.
        cbn [map snd flat_map default]. unfold id, hits_with_id.
        rewrite <- !app_assoc. reflexivity.
      * rewrite (bool_decide_eq_false_2 _ Hne). rewrite lookup_insert_ne by exact Hne.
        reflexivity.
    + intros mcp. rewrite Hpd', Hpd, appended_app. f_equal.
      unfold listings. cbn [flat_map snd]. rewrite map_app. f_equal.
      unfold particles_of. rewrite Hmc.
      induction (count_if _ mcps) as [|c IHc]; [reflexivity|].
      cbn [replicate map snd]. rewrite IHc. reflexivity.
    + intros mcp. rewrite Hid', Hid.
      unfold listings at 2. cbn [flat_map snd]. fold (listings mcp hits).
      rewrite last_app. unfold particles_of. rewrite Hmc.
      destruct (last (listings mcp hits)) as [hit|]; [rewrite Hn1; reflexivity|].
      rewrite last_replicate.
      destruct (count_if _ mcps =? 0); reflexivity.
    + constructor; [cbn [snd]; rewrite Hmc; reflexivity | exact Hret'].
Qed.

Lemma truth_cluster_concat (pixel_data_vec : list (list float)) :
  truth_cluster_charge_vec pixel_data_vec = concat pixel_data_vec.
Proof.
  unfold truth_cluster_charge_vec.
  assert (Hgen : ∀ cluster : list float,
            fold_left (λ cluster v, cluster ++ v) pixel_data_vec cluster
            = cluster ++ concat pixel_data_vec).
  { induction pixel_data_vec as [|v l IH]; intros cluster; cbn [fold_left concat].
    - rewrite app_nil_r. reflexivity.
    - rewrite IH, <- app_assoc. reflexivity. }
  apply Hgen.
Qed.



(** X12.  The loop over the pixel messages either throws what
    [getMCParticles] of one of the hits threw, or leaves under every
    sensor id the values of the hits of the detectors with that id, hit
    after hit in the order of the messages, three, four or seven values
    per hit; a detector name that has no id is given the id 0, and no name
    changes its id. *)
Theorem charges_collect_the_hits (traverse_ids : gmap string nat → list (string * nat))
    (pixel_type_ : Z) (pixel_messages_ : list PixelHitMessage) (m : members) :
  match fill cast_index cast_signal zero pixel_type_ pixel_messages_ (enter traverse_ids m) with
  | Value fr =>
      (∀ det_id,
         default [] (charges fr !! det_id)
         = flat_map (this_hit_charge_vec cast_index cast_signal zero pixel_type_)
             (hits_with_id (det_name_to_id_ m) det_id (hits_of pixel_messages_))
         ∧ length (default [] (charges fr !! det_id))
           = length (hits_with_id (det_name_to_id_ m) det_id (hits_of pixel_messages_))
             * values_per_pixel pixel_type_)
      ∧ ∀ det_name, id_for (det_name_to_id_ (this fr)) det_name
                    = id_for (det_name_to_id_ m) det_name
  | Thrown e => ∃ hit, hit ∈ hits_of pixel_messages_ ∧ getMCParticles hit.2 = Thrown e
  end.
Proof.
  rewrite fill_hits.
  pose proof (fill_effect pixel_type_ (hits_of pixel_messages_) (enter traverse_ids m)) as H.
  destruct (for_each_result _ _ _) as [fr|e]; [|exact H].
  destruct H as (_ & Hn & _ & Hch & _). cbn [enter this charges] in *.
  split; [|exact Hn]. intros det_id.
  assert (Heq : default [] (charges fr !! det_id)
                = flat_map (this_hit_charge_vec cast_index cast_signal zero pixel_type_)
                    (hits_with_id (det_name_to_id_ m) det_id (hits_of pixel_messages_))).
  { rewrite Hch, empty_charges_lookup. reflexivity. }
  split; [exact Heq|]. rewrite Heq.
  apply flat_map_constant_length. intros h _. apply charge_vec_length.
Qed.

(** X13.  When the loop over the pixel messages is through, a particle has
    an entry exactly when a hit lists it; the entry holds the values of
    those hits, once for every listing, the truth cluster made of it is
    their concatenation, and the sensor id kept for the particle is that of
    the detector of the last hit that lists it. *)
Theorem truth_clusters_collect_the_listings
    (traverse_ids : gmap string nat → list (string * nat)) (pixel_type_ : Z)
    (pixel_messages_ : list PixelHitMessage) (m : members) (fr : @frame float) (mcp : addr) :
  fill cast_index cast_signal zero pixel_type_ pixel_messages_ (enter traverse_ids m)
  = Value fr →
  mcp_to_pixel_data_vec fr !! mcp
  = match listings mcp (hits_of pixel_messages_) with
    | [] => None
    | hits =>
        Some (map (λ hit, this_hit_charge_vec cast_index cast_signal zero pixel_type_ hit.2)
                hits)
    end
  ∧ truth_cluster_charge_vec (default [] (mcp_to_pixel_data_vec fr !! mcp))
    = flat_map (λ hit, this_hit_charge_vec cast_index cast_signal zero pixel_type_ hit.2)
        (listings mcp (hits_of pixel_messages_))
  ∧ mcp_to_det_id fr !! mcp
    = (λ hit, id_for (det_name_to_id_ m) hit.1)
        <$> last (listings mcp (hits_of pixel_messages_)).
Proof.
  rewrite fill_hits. intros Hfill.
  pose proof (fill_effect pixel_type_ (hits_of pixel_messages_) (enter traverse_ids m)) as H.
  rewrite Hfill in H. destruct H as (_ & _ & _ & _ & Hpd & Hid & _).
  specialize (Hpd mcp). specialize (Hid mcp).
  cbn [enter this mcp_to_det_id mcp_to_pixel_data_vec] in *.
  rewrite lookup_empty in Hpd. rewrite lookup_empty in Hid.
  assert (Hentry : mcp_to_pixel_data_vec fr !! mcp
                   = match listings mcp (hits_of pixel_messages_) with
                     | [] => None
                     | hits =>
                         Some (map (λ hit, this_hit_charge_vec cast_index cast_signal zero
                                             pixel_type_ hit.2) hits)
                     end).
  { rewrite Hpd. destruct (listings mcp (hits_of pixel_messages_)); reflexivity. }
  split; [exact Hentry|]. split.
  - rewrite truth_cluster_concat, Hentry, flat_map_concat_map.
    destruct (listings mcp (hits_of pixel_messages_)); reflexivity.
  - rewrite Hid. destruct (last _); reflexivity.
Qed.

Section with_the_constructor.

Variable stoi : string → result stoi_exn Z.
Variable traverse : gmap string (list string) → list (string * list string).
Hypothesis traverse_once : ∀ cols, Permutation (traverse cols) (map_to_list cols).
Variable traverse_ids : gmap string nat → list (string * nat).
Hypothesis traverse_ids_once : ∀ names, Permutation (traverse_ids names) (map_to_list names).


End with_the_constructor.

End LCIOWriter_run_facts.

(** ** The statements about run at a concrete input *)

Lemma demo_filled :
  fill id id 0%Z 2 demo_messages (enter map_to_list demo_members) = Value demo_frame.
Proof. vm_compute. reflexivity. Qed.

Lemma truth_clusters_collect_the_listings_witness :
  fill id id 0%Z 2 demo_messages (enter map_to_list demo_members) = Value demo_frame
  ∧ truth_cluster_charge_vec (default [] (mcp_to_pixel_data_vec demo_frame !! 7))
    = [3; 4; 100; 0; 3; 5; 60; 0; 10; 11; 40; 0]%Z
  ∧ mcp_to_det_id demo_frame !! 7 = Some 1.
Proof.
  split; [vm_compute; reflexivity|].
  destruct (truth_clusters_collect_the_listings id id 0%Z map_to_list 2 demo_messages
              demo_members demo_frame 7 demo_filled) as (_ & Hcluster & Hid).
  split; [etrans; [exact Hcluster | reflexivity] | etrans; [exact Hid | reflexivity]].
Defined.


(** ** PixelCharge: what the constructors store and the getters fetch *)

Lemma push_back_all {A} (l vec : list A) :
  fold_left (λ vec a, vec ++ [a]) l vec = vec ++ l.
Proof.
  revert vec. induction l as [|a l IH]; intros vec; cbn [fold_left].
  - rewrite app_nil_r. reflexivity.
  - rewrite IH, <- app_assoc. reflexivity.
Qed.

Lemma forallb_fmap {A B} (f : B → bool) (g : A → B) (l : list A) :
  forallb f (map g l) = forallb (λ a, f (g a)) l.
Proof. induction l as [|a l IH]; cbn; [reflexivity | rewrite IH; reflexivity]. Qed.

Section PixelCharge_facts.

Import PixelCharge.

Context `{Countable TRef} {Pixel Pulse : Type}.
Variable ref_to : addr → TRef.
Variable IsValid : TRef → bool.
Variable GetObject : TRef → option addr.
Variable ordered : gset TRef → list TRef.
Variable new_pulse : Pulse.
Variable addCharge : Pulse → nat → nat → Pulse.
Variable abs_charge : Pulse → nat.
Variable mc_particle_ : addr → TRef.
Variable as_PropagatedCharge : addr → option addr.
Variable as_MCParticle : addr → option addr.

Hypothesis ordered_once : ∀ s, Permutation (ordered s) (elements s).

Lemma store_charges (propagated_charges : list addr) (st : list TRef * gset TRef) :
  (fold_left (store_charge ref_to mc_particle_) propagated_charges st).1
  = st.1 ++ map ref_to propagated_charges
  ∧ ∀ r, r ∈ (fold_left (store_charge ref_to mc_particle_) propagated_charges st).2
         ↔ r ∈ map mc_particle_ propagated_charges ∨ r ∈ st.2.
Proof.
  revert st. induction propagated_charges as [|pc pcs IH]; intros st; cbn [fold_left map].
  - rewrite app_nil_r. split; [reflexivity|]. intros r. split; [auto|].
    intros [Hin|Hin]; [inversion Hin | exact Hin].
  - destruct (IH (store_charge ref_to mc_particle_ st pc)) as [Hvec Hset].
    split.
    + rewrite Hvec. cbn [store_charge fst]. rewrite <- app_assoc. reflexivity.
    + intros r. rewrite Hset. cbn [store_charge snd].
      rewrite elem_of_union, elem_of_singleton, elem_of_cons.
      split; [intros [H1|[H1|H1]] | intros [[H1|H1]|H1]]; auto.
Qed.

Lemma made_particles (pixel : Pixel) (charge : nat) (propagated_charges : list addr) :
  NoDup (mc_particles_ (make ref_to ordered new_pulse addCharge mc_particle_
                          pixel charge propagated_charges))
  ∧ ∀ r, r ∈ mc_particles_ (make ref_to ordered new_pulse addCharge mc_particle_
                              pixel charge propagated_charges)
         ↔ r ∈ map mc_particle_ propagated_charges.
Proof.
  cbn [make mc_particles_]. rewrite push_back_all, app_nil_l.
  destruct (store_charges propagated_charges ([], ∅)) as [_ Hset].
  split.
  - rewrite ordered_once. apply NoDup_elements.
  - intros r. rewrite ordered_once, elem_of_elements, Hset. cbn [snd].
    rewrite elem_of_empty. split; [intros [H1|[]]; exact H1 | auto].
Qed.

(** The loop of a getter. *)
Lemma fetch_all (cast : addr → option addr) (class : string) (references : list TRef)
    (vec : list (option addr)) :
  for_each_result (fetch IsValid GetObject cast class) references vec
  = if forallb (in_scope IsValid GetObject) references
    then Value (vec ++ map (fetched GetObject cast) references)
    else Thrown (MissingReferenceException "PixelCharge" class).
Proof.
  revert vec. induction references as [|r refs IH]; intros vec;
    cbn [for_each_result forallb map].
  - rewrite app_nil_r. reflexivity.
  - unfold fetch at 1, in_scope at 1, fetched at 1.
    destruct (IsValid r); [|reflexivity].
    destruct (GetObject r) as [object|]; [|reflexivity].
    rewrite bool_decide_eq_true_2 by eauto. cbn [andb mbind option_bind].
    rewrite IH. destruct (forallb _ refs); [|reflexivity].
    rewrite <- app_assoc. reflexivity.
Qed.

Lemma forallb_same_elements {A} (f : A → bool) (l1 l2 : list A) :
  (∀ a, a ∈ l1 ↔ a ∈ l2) → forallb f l1 = forallb f l2.
Proof.
  intros Hsame. apply eq_true_iff_eq. rewrite !forallb_forall.
  split; intros Hall a Ha%list_elem_of_In; apply Hall, list_elem_of_In, Hsame, Ha.
Qed.

(** X15.  A pixel charge keeps a reference to every propagated charge it
    was made from, in their order, and a reference to each of their MC
    particles once, however many of the charges share the particle; made
    from a pulse, it keeps the pulse and has its charge without the
    sign. *)
Theorem particles_are_stored_once (pixel : Pixel) (charge : nat) (pulse : Pulse)
    (propagated_charges : list addr) :
  propagated_charges_ (make ref_to ordered new_pulse addCharge mc_particle_
                         pixel charge propagated_charges)
  = map ref_to propagated_charges
  ∧ NoDup (mc_particles_ (make ref_to ordered new_pulse addCharge mc_particle_
                            pixel charge propagated_charges))
  ∧ (∀ r, r ∈ mc_particles_ (make ref_to ordered new_pulse addCharge mc_particle_
                               pixel charge propagated_charges)
          ↔ ∃ propagated_charge, propagated_charge ∈ propagated_charges
                                 ∧ mc_particle_ propagated_charge = r)
  ∧ length (mc_particles_ (make ref_to ordered new_pulse addCharge mc_particle_
                             pixel charge propagated_charges))
    ≤ length propagated_charges
  ∧ make_from_pulse ref_to ordered new_pulse addCharge abs_charge mc_particle_
      pixel pulse propagated_charges
    = {| pixel_ := pixel;
         charge_ := abs_charge pulse;
         pulse_ := pulse;
         propagated_charges_ := map ref_to propagated_charges;
         mc_particles_ :=
           mc_particles_ (make ref_to ordered new_pulse addCharge mc_particle_
                            pixel charge propagated_charges) |}.
Proof.
  destruct (made_particles pixel charge propagated_charges) as [Hnd Hin].
  destruct (store_charges propagated_charges ([], ∅)) as [Hvec _].
  split; [exact Hvec|]. split; [exact Hnd|]. split; [|split].
  - intros r. rewrite Hin, list_elem_of_fmap. split; intros (pc & H1 & H2); eauto.
  - rewrite <- (length_map mc_particle_). apply submseteq_length.
    apply NoDup_submseteq; [exact Hnd|]. intros r. apply Hin.
  - unfold make_from_pulse. cbn [make pixel_ charge_ propagated_charges_ mc_particles_].
    rewrite Hvec. reflexivity.
Qed.

(** X16.  The getters return everything or throw: the propagated charges
    are fetched, in the order given to the constructor, when every one of
    them is in scope, and the MC particles when the particle of every
    propagated charge is; otherwise the getter throws
    [MissingReferenceException].  Charges that are in scope as what they
    were stored as are returned as they were given. *)
Theorem getters_fetch_all_or_throw (pixel : Pixel) (charge : nat)
    (propagated_charges : list addr) :
  getPropagatedCharges IsValid GetObject as_PropagatedCharge
    (make ref_to ordered new_pulse addCharge mc_particle_ pixel charge propagated_charges)
  = (if forallb (λ pc, in_scope IsValid GetObject (ref_to pc)) propagated_charges
     then Value (map (λ pc, fetched GetObject as_PropagatedCharge (ref_to pc))
                   propagated_charges)
     else Thrown (MissingReferenceException "PixelCharge" "PropagatedCharge"))
  ∧ getMCParticles IsValid GetObject as_MCParticle
      (make ref_to ordered new_pulse addCharge mc_particle_ pixel charge propagated_charges)
    = (if forallb (λ pc, in_scope IsValid GetObject (mc_particle_ pc)) propagated_charges
       then Value (map (fetched GetObject as_MCParticle)
                     (mc_particles_ (make ref_to ordered new_pulse addCharge mc_particle_
                                       pixel charge propagated_charges)))
       else Thrown (MissingReferenceException "PixelCharge" "MCParticle"))
  ∧ (Forall (λ pc, IsValid (ref_to pc) = true ∧ GetObject (ref_to pc) = Some pc
                   ∧ as_PropagatedCharge pc = Some pc) propagated_charges →
     getPropagatedCharges IsValid GetObject as_PropagatedCharge
       (make ref_to ordered new_pulse addCharge mc_particle_ pixel charge
          propagated_charges)
     = Value (map Some propagated_charges)).
Proof.
  destruct (made_particles pixel charge propagated_charges) as [_ Hin].
  destruct (store_charges propagated_charges ([], ∅)) as [Hvec _].
  assert (Hcharges :
    getPropagatedCharges IsValid GetObject as_PropagatedCharge
      (make ref_to ordered new_pulse addCharge mc_particle_ pixel charge propagated_charges)
    = (if forallb (λ pc, in_scope IsValid GetObject (ref_to pc)) propagated_charges
       then Value (map (λ pc, fetched GetObject as_PropagatedCharge (ref_to pc))
                     propagated_charges)
       else Thrown (MissingReferenceException "PixelCharge" "PropagatedCharge"))).
  { unfold getPropagatedCharges. rewrite fetch_all.
    cbn [make propagated_charges_]. rewrite Hvec. cbn [fst app].
    rewrite forallb_fmap, map_map. reflexivity. }
  split; [exact Hcharges|]. split.
  - unfold getMCParticles. rewrite fetch_all, app_nil_l.
    rewrite (forallb_same_elements _ _ (map mc_particle_ propagated_charges) Hin).
    rewrite forallb_fmap. reflexivity.
  - intros Hall. rewrite Hcharges.
    assert (Hscope : forallb (λ pc, in_scope IsValid GetObject (ref_to pc))
                       propagated_charges = true).
    { apply forallb_forall. intros pc Hpc%list_elem_of_In.
      rewrite Forall_forall in Hall. destruct (Hall pc Hpc) as (Hv & Ho & _).
      unfold in_scope. rewrite Hv, Ho. apply bool_decide_eq_true_2. eauto. }
    rewrite Hscope. f_equal. apply map_ext_in. intros pc Hpc%list_elem_of_In.
    rewrite Forall_forall in Hall. destruct (Hall pc Hpc) as (_ & Ho & Hc).
    unfold fetched. rewrite Ho. exact Hc.
Qed.

End PixelCharge_facts.

Lemma particles_are_stored_once_witness :
  (∀ s : gset nat, Permutation (elements s) (elements s))
  ∧ PixelCharge.propagated_charges_ PixelCharge.demo_charge = [11; 12; 21]
  ∧ NoDup (PixelCharge.mc_particles_ PixelCharge.demo_charge)
  ∧ length (PixelCharge.mc_particles_ PixelCharge.demo_charge) ≤ 3.
Proof.
  split; [intros s; reflexivity|].
  destruct (particles_are_stored_once id elements []
              (λ pulse charge bin, (charge, bin) :: pulse) (λ pulse, length pulse)
              PixelCharge.demo_particle (λ s, Permutation_refl _) tt 100 [] [11; 12; 21])
    as (Hcharges & Hnd & _ & Hlen & _).
  split; [exact Hcharges|]. split; [exact Hnd | exact Hlen].
Defined.

Lemma getters_fetch_all_or_throw_witness :
  (∀ s : gset nat, Permutation (elements s) (elements s))
  ∧ Forall (λ pc, PixelCharge.demo_valid (id pc) = true
                  ∧ PixelCharge.demo_object (id pc) = Some pc ∧ Some pc = Some pc)
      [11; 12; 21]
  ∧ PixelCharge.getPropagatedCharges PixelCharge.demo_valid PixelCharge.demo_object Some
      PixelCharge.demo_charge
    = Value [Some 11; Some 12; Some 21]
  ∧ PixelCharge.getMCParticles PixelCharge.demo_valid PixelCharge.demo_object Some
      PixelCharge.demo_charge
    = Value (map Some (PixelCharge.mc_particles_ PixelCharge.demo_charge)).
Proof.
  assert (Hscope : Forall (λ pc, PixelCharge.demo_valid (id pc) = true
                                 ∧ PixelCharge.demo_object (id pc) = Some pc
                                 ∧ Some pc = Some pc) [11; 12; 21])
    by (repeat constructor).
  split; [intros s; reflexivity|]. split; [exact Hscope|].
  destruct (getters_fetch_all_or_throw id PixelCharge.demo_valid PixelCharge.demo_object
              elements [] (λ pulse charge bin, (charge, bin) :: pulse)
              PixelCharge.demo_particle Some Some (λ s, Permutation_refl _)
              tt 100 [11; 12; 21])
    as (_ & Hparticles & Hsame).
  split; [exact (Hsame Hscope)|].
  etrans; [exact Hparticles | vm_compute; reflexivity].
Defined.
